(** * Stock location orderpoints: fill-up replenishment

    A shallow embedding of [stock_location_orderpoint/models/
    stock_location_orderpoint.py].  Records of the ORM are Rocq records,
    recordsets are lists, dictionaries are finite maps, exceptions are the
    [Raise] branch of a result type, and the database is an explicit state
    threaded through the methods that touch it.

    Quantities are Python floats in the source.  They are embedded as exact
    rationals ([Q]): every comparison, subtraction, [abs] and [min] below is
    the exact operation, so the statements are about the arithmetic the code
    intends and not about IEEE-754 rounding of individual operations.  The
    module [IEEE] embeds the quantity computation and the replenishment loop
    once more with binary64 floats, for the statements that rounding
    decides. *)

From Stdlib Require Import QArith Qround Qabs Qminmax Lqa.
From Stdlib Require Import Floats.PrimFloat Floats.SpecFloat Floats.FloatOps.
From stdpp Require Import gmap strings list fin_maps.

Local Open Scope Q_scope.

(** ** Exceptions and the result type *)

Inductive exn : Type :=
  | KeyError
  | AssertionError
  | ValueError
  | OverflowError
  | ValidationError (msg : string).

Inductive result (A : Type) : Type :=
  | Ok (a : A)
  | Raise (e : exn).
Arguments Ok {A} a.
Arguments Raise {A} e.

#[global] Instance result_ret : MRet result := fun A a => Ok a.
#[global] Instance result_fmap : FMap result := fun A B f m =>
  match m with
  | Ok a => Ok (f a)
  | Raise e => Raise e
  end.
#[global] Instance result_bind : MBind result := fun A B f m =>
  match m with
  | Ok a => f a
  | Raise e => Raise e
  end.

(** A dictionary subscript [d[k]]: a missing key raises [KeyError]. *)
Definition getitem `{Countable K} {V : Type} (d : gmap K V) (k : K) : result V :=
  match d !! k with
  | Some v => Ok v
  | None => Raise KeyError
  end.

(** ** [odoo.tools.float_utils]

    Framework helpers used by the orderpoint code; they are not part of this
    repository.  They are written here after the framework's definitions, in
    exact arithmetic: the precision must be positive (the framework asserts
    it), a value is normalised by the precision, rounded to the nearest
    integer with ties away from zero, and de-normalised; two values are
    compared after rounding. *)
Module float_utils.

(** Round to the nearest integer, ties away from zero. *)
Definition round (f : Q) : Z :=
  (Z.sgn (Qnum f) * Qfloor (Qabs f + (1 # 2)))%Z.

Definition _float_check_precision (precision_rounding : Q) : result Q :=
  if Qlt_le_dec 0 precision_rounding
  then Ok precision_rounding
  else Raise AssertionError.

Definition float_round (value precision_rounding : Q) : result Q :=
  rounding_factor ← _float_check_precision precision_rounding;
  if Qeq_bool rounding_factor 0 || Qeq_bool value 0 then Ok 0
  else
    let normalized_value := value / rounding_factor in
    let rounded_value := round normalized_value in
    Ok (inject_Z rounded_value * rounding_factor).

Definition float_is_zero (value precision_rounding : Q) : result bool :=
  epsilon ← _float_check_precision precision_rounding;
  rounded ← float_round value epsilon;
  Ok (if Qlt_le_dec (Qabs rounded) epsilon then true else false).

Definition float_compare (value1 value2 precision_rounding : Q) : result Z :=
  rounding_factor ← _float_check_precision precision_rounding;
  value1 ← float_round value1 rounding_factor;
  value2 ← float_round value2 rounding_factor;
  let delta := value1 - value2 in
  is_zero ← float_is_zero delta rounding_factor;
  if is_zero : bool then Ok 0%Z
  else Ok (if Qlt_le_dec delta 0 then (-1)%Z else 1%Z).

End float_utils.
Import float_utils.

(** ** Records of the ORM models the orderpoint code reads

    Only the fields the code reads are kept.  A record is identified by its
    database [id]; recordsets are lists, dictionaries keyed by a record are
    finite maps keyed by its [id]. *)

Module Uom.
Record t : Type := { id : positive; rounding : Q }.
End Uom.

Module Product.
Record t : Type := { id : positive; uom_id : Uom.t }.
End Product.

Module Location.
Record t : Type :=
  { id : positive; display_name : string; parent_path : string }.
End Location.

Module Rule.
(** [stock.rule]: [location_id] is the destination location of the rule. *)
Record t : Type :=
  { id : positive;
    location_id : Location.t;
    location_src_id : option Location.t;
    procure_method : string }.
End Rule.

Module Route.
Record t : Type :=
  { id : positive; display_name : string; rule_ids : list Rule.t }.
End Route.

Module Move.
Record t : Type :=
  { id : positive;
    product_id : Product.t;
    location_id : Location.t }.
End Move.

Module Quantities.
(** The dictionary [_product_available] yields for one product. *)
Record t : Type :=
  { qty_available : Q;
    free_qty : Q;
    incoming_qty : Q;
    outgoing_qty : Q;
    virtual_available : Q }.
End Quantities.

Module Orderpoint.
Record t : Type :=
  { id : positive;
    name : string;
    company_id : positive;
    location_id : Location.t;
    trigger : string;
    replenish_method : string;
    sequence : Z;
    route_id : option Route.t;
    group_id : option positive;
    location_src_id : option Location.t;
    active : bool;
    priority : option string }.
End Orderpoint.

(** [qties_on_locations]: location, then product, to the quantities. *)
Abbreviation quantities_dict := (gmap positive (gmap positive Quantities.t)).

(** ** Recordset helpers *)

(** Keep the first occurrence of every key, as the union of recordsets does. *)
Fixpoint unique_by {A : Type} (key : A → positive) (seen : gset positive)
    (l : list A) : list A :=
  match l with
  | [] => []
  | x :: l' =>
      if decide (key x ∈ seen) then unique_by key seen l'
      else x :: unique_by key ({[key x]} ∪ seen) l'
  end.

(** [moves.product_id] *)
Definition moves_product_id (moves : list Move.t) : list Product.t :=
  unique_by Product.id ∅ (Move.product_id <$> moves).

(** [rules.location_id] *)
Definition rules_location_id (rules : list Rule.t) : list Location.t :=
  unique_by Location.id ∅ (Rule.location_id <$> rules).

(** [record in recordset] *)
Definition location_in (l : Location.t) (ls : list Location.t) : bool :=
  bool_decide (Location.id l ∈ Location.id <$> ls).

(** ** The constraint on location and route *)

Definition route_error_message (route location : string) : string :=
  ("The selected route " +:+ route +:+
   " must contain a rule where the Destination Location is " +:+ location)%string.

Fixpoint _check_location_id_route_id (self : list Orderpoint.t) : result unit :=
  match self with
  | [] => Ok tt
  | orderpoint :: rest =>
      match Orderpoint.route_id orderpoint with
      | None => _check_location_id_route_id rest
      | Some route =>
          if location_in (Orderpoint.location_id orderpoint)
               (rules_location_id (Route.rule_ids route))
          then _check_location_id_route_id rest
          else Raise (ValidationError
                 (route_error_message (Route.display_name route)
                    (Location.display_name (Orderpoint.location_id orderpoint))))
      end
  end.

(** ** Quantity to replenish *)

Definition _get_qty_to_replenish_fill_up (self : Orderpoint.t)
    (product : Product.t) (qties_on_locations : quantities_dict)
    (qty_already_replenished : Q) : result Q :=
  match Orderpoint.location_src_id self with
  | None => Ok 0
  | Some location_src_id =>
      qties_on_dest ←
        (on_location ← getitem qties_on_locations
                         (Location.id (Orderpoint.location_id self));
         getitem on_location (Product.id product));
      let virtual_available_on_dest := Quantities.virtual_available qties_on_dest in
      cmp_dest ← float_compare virtual_available_on_dest 0
                   (Uom.rounding (Product.uom_id product));
      if (cmp_dest >=? 0)%Z then Ok 0
      else
        let virtual_available_on_dest := Qabs virtual_available_on_dest in
        qties_on_src ←
          (on_location ← getitem qties_on_locations (Location.id location_src_id);
           getitem on_location (Product.id product));
        let virtual_available_on_src :=
          Quantities.virtual_available qties_on_src
          - Quantities.incoming_qty qties_on_src in
        cmp_src ← float_compare virtual_available_on_src 0
                    (Uom.rounding (Product.uom_id product));
        if (cmp_src <=? 0)%Z then Ok 0
        else
          let qty_to_replenish :=
            virtual_available_on_dest - qty_already_replenished in
          Ok (Qmin qty_to_replenish virtual_available_on_src)
  end.

Definition _get_qty_to_replenish (self : Orderpoint.t) (product : Product.t)
    (qties_on_locations : quantities_dict) (qty_already_replenished : Q)
    : result Q :=
  if String.eqb (Orderpoint.replenish_method self) "fill_up"
  then _get_qty_to_replenish_fill_up self product qties_on_locations
         qty_already_replenished
  else Ok 0.

(** ** Search domains *)

Inductive domain_value : Type :=
  | VBool (b : bool)
  | VStr (s : string)
  | VStrs (l : list string)
  | VIds (l : list positive).

Inductive domain_item : Type :=
  | Term (field operator : string) (value : domain_value)
  | Operator (op : string).

Abbreviation domain := (list domain_item).

(** ** Procurements *)

Module ProcurementValues.
Record t : Type :=
  { route_ids : option Route.t;
    date_deadline : option Z;
    warehouse_id : option positive;
    group_id : option positive;
    priority : string;
    location_orderpoint_id : positive;
    date_planned : option Z }.
End ProcurementValues.

Module Procurement.
Record t : Type :=
  { product_id : Product.t;
    product_qty : Q;
    product_uom : Uom.t;
    location_id : Location.t;
    name : string;
    origin : string;
    company_id : positive;
    values : ProcurementValues.t }.
End Procurement.

(** ** The framework

    What the orderpoint code asks of the ORM and of the other models: reads
    of the database [Env], the two writes ([procurement_run] and
    [action_assign]), and the helper methods that live outside this file. *)
Class ORM : Type :=
  { Env : Type;
    (** [product.with_context(location=...)._product_available()], per product *)
    product_quantities : Env → Location.t → Product.t → Quantities.t;
    (** [self.search(domain)] on orderpoints *)
    search_orderpoints : Env → domain → list Orderpoint.t;
    (** [self.sorted()]: the model order, priority desc then sequence *)
    sorted_orderpoints : Env → list Orderpoint.t → list Orderpoint.t;
    (** [read_group] of moves by location, each group browsed *)
    read_group_moves : Env → domain → list (Location.t * list Move.t);
    (** [search] on moves with an order *)
    search_moves : Env → domain → string → list Move.t;
    (** [procurement.group.run(procurements, raise_user_error=False)] *)
    procurement_run : list Procurement.t → Env → Env;
    (** [moves._action_assign()] *)
    action_assign : list positive → Env → Env;
    (** [fields.Datetime.now()] *)
    now : Env → Z;
    (** [location.get_closest_warehouse()] *)
    get_closest_warehouse : Env → Location.t → option positive;
    (** [moves._get_location_orderpoint_replenishment_date(product)] *)
    replenishment_date : list Move.t → Product.t → option Z;
    (** [location._get_source_location_from_route(route, procure_method)] *)
    get_source_location_from_route :
      Env → Location.t → Route.t → string → option Location.t;
    (** [expression.AND] and [expression.OR] *)
    expression_AND : list domain → domain;
    expression_OR : list domain → domain }.

(** The state the methods run in: the database and the writes performed so
    far, in order. *)
Inductive Effect : Type :=
  | ProcurementRun (procurements : list Procurement.t)
  | ActionAssign (move_ids : list positive).

Record World `{ORM} : Type :=
  { db : Env; effects : list Effect }.

(** ** Loops *)

Fixpoint foldlM {A B : Type} (f : B → A → result B) (b : B) (l : list A)
    : result B :=
  match l with
  | [] => Ok b
  | x :: l' => b' ← f b x; foldlM f b' l'
  end.

(** [split_every(n, ids)] *)
Fixpoint split_every_fuel {A : Type} (fuel n : nat) (l : list A) : list (list A) :=
  match fuel with
  | O => []
  | S fuel' =>
      match take n l with
      | [] => []
      | piece => piece :: split_every_fuel fuel' n (drop n l)
      end
  end.

Definition split_every {A : Type} (n : nat) (l : list A) : list (list A) :=
  split_every_fuel (length l) n l.

(** ** State of the replenishment loop *)

(** [qties_replenished]: a defaultdict of defaultdicts of 0, read by key only;
    a read yields the default without recording it. *)
Definition replenished_get (qties_replenished : gmap positive (gmap positive Q))
    (location product : positive) : Q :=
  default 0 (qties_replenished !! location ≫= (.!! product)).

Definition replenished_add (qties_replenished : gmap positive (gmap positive Q))
    (location product : positive) (qty : Q) : gmap positive (gmap positive Q) :=
  <[location :=
      <[product := replenished_get qties_replenished location product + qty]>
        (default ∅ (qties_replenished !! location))]> qties_replenished.

(** [qties_to_replenish]: a defaultdict of lists keyed by orderpoint, kept in
    insertion order. *)
Abbreviation to_replenish_dict :=
  (list (Orderpoint.t * list (Product.t * Q))).

Fixpoint to_replenish_append (d : to_replenish_dict) (orderpoint : Orderpoint.t)
    (item : Product.t * Q) : to_replenish_dict :=
  match d with
  | [] => [(orderpoint, [item])]
  | (o, items) :: d' =>
      if decide (Orderpoint.id o = Orderpoint.id orderpoint)
      then (o, items ++ [item]) :: d'
      else (o, items) :: to_replenish_append d' orderpoint item
  end.

Record loop_state : Type :=
  { qties_replenished : gmap positive (gmap positive Q);
    qties_to_replenish : to_replenish_dict }.

Definition loop_init : loop_state :=
  {| qties_replenished := ∅; qties_to_replenish := [] |}.

(** The body of the inner loop of [_get_qties_to_replenish]. *)
Definition replenish_product (qties_on_locations : quantities_dict)
    (orderpoint : Orderpoint.t) (st : loop_state) (product : Product.t)
    : result loop_state :=
  let location := Location.id (Orderpoint.location_id orderpoint) in
  qty_to_replenish ←
    _get_qty_to_replenish orderpoint product qties_on_locations
      (replenished_get (qties_replenished st) location (Product.id product));
  cmp ← float_compare qty_to_replenish 0 (Uom.rounding (Product.uom_id product));
  if (cmp >? 0)%Z
  then Ok {| qties_replenished :=
               replenished_add (qties_replenished st) location
                 (Product.id product) qty_to_replenish;
             qties_to_replenish :=
               to_replenish_append (qties_to_replenish st) orderpoint
                 (product, qty_to_replenish) |}
  else Ok st.

(** The body of the outer loop. *)
Definition replenish_orderpoint (qties_on_locations : quantities_dict)
    (moves_by_location : gmap positive (list Move.t))
    (st : loop_state) (orderpoint : Orderpoint.t) : result loop_state :=
  match moves_by_location !! Location.id (Orderpoint.location_id orderpoint) with
  | None => Ok st
  | Some moves =>
      foldlM (replenish_product qties_on_locations orderpoint) st
        (moves_product_id moves)
  end.

Section Methods.
Context `{ORM}.

Definition _compute_location_src_id (env : Env) (orderpoint : Orderpoint.t)
    : option Location.t :=
  match Orderpoint.route_id orderpoint with
  | Some route =>
      get_source_location_from_route env (Orderpoint.location_id orderpoint)
        route "make_to_stock"
  | None => None
  end.

Definition _prepare_procurement (env : Env) (self : Orderpoint.t)
    (product : Product.t) (qty : Q) (date_planned : option Z)
    (proc_vals : ProcurementValues.t) : Procurement.t :=
  let proc_vals :=
    {| ProcurementValues.route_ids := ProcurementValues.route_ids proc_vals;
       ProcurementValues.date_deadline := ProcurementValues.date_deadline proc_vals;
       ProcurementValues.warehouse_id := ProcurementValues.warehouse_id proc_vals;
       ProcurementValues.group_id := ProcurementValues.group_id proc_vals;
       ProcurementValues.priority := ProcurementValues.priority proc_vals;
       ProcurementValues.location_orderpoint_id :=
         ProcurementValues.location_orderpoint_id proc_vals;
       ProcurementValues.date_planned :=
         Some (default (now env) date_planned) |} in
  {| Procurement.product_id := product;
     Procurement.product_qty := qty;
     Procurement.product_uom := Product.uom_id product;
     Procurement.location_id := Orderpoint.location_id self;
     Procurement.name := Orderpoint.name self;
     Procurement.origin := Orderpoint.name self;
     Procurement.company_id := Orderpoint.company_id self;
     Procurement.values := proc_vals |}.

Definition _prepare_procurement_values (env : Env) (self : Orderpoint.t)
    : ProcurementValues.t :=
  {| ProcurementValues.route_ids := Orderpoint.route_id self;
     ProcurementValues.date_deadline := None;
     ProcurementValues.warehouse_id :=
       get_closest_warehouse env (Orderpoint.location_id self);
     ProcurementValues.group_id := Orderpoint.group_id self;
     ProcurementValues.priority := default "0"%string (Orderpoint.priority self);
     ProcurementValues.location_orderpoint_id := Orderpoint.id self;
     ProcurementValues.date_planned := None |}.

Definition _get_waiting_move_domain (self : list Orderpoint.t) : domain :=
  let domain :=
    [ Term "state" "in" (VStrs ["confirmed"; "partially_available"]);
      Term "move_orig_ids" "=" (VBool false);
      Term "procure_method" "=" (VStr "make_to_stock") ]%string in
  let location_domains :=
    (λ orderpoint : Orderpoint.t,
       let ids := [Location.id (Orderpoint.location_id orderpoint)] in
       [ Term "location_id" "child_of" (VIds ids);
         Operator "!";
         Term "location_dest_id" "child_of" (VIds ids) ]%string) <$> self in
  match location_domains with
  | [] => domain
  | _ => expression_AND [domain; expression_OR location_domains]
  end.

(** [products=False] is [None]; an empty recordset is falsy as well. *)
Definition truthy {A : Type} (records : option (list A)) : bool :=
  match records with
  | Some (_ :: _) => true
  | _ => false
  end.

Definition _find_potential_moves_to_replenish_by_location (env : Env)
    (self : list Orderpoint.t) (products : option (list Product.t))
    : gmap positive (list Move.t) :=
  let domain := _get_waiting_move_domain self in
  let domain :=
    if truthy products
    then expression_AND
           [domain;
            [Term "product_id" "in"
               (VIds (Product.id <$> default [] products))]%string]
    else domain in
  let moves_grouped := read_group_moves env domain in
  foldl (λ d res, <[Location.id res.1 := res.2]> d) ∅ moves_grouped.

Definition _sort_orderpoints (env : Env) (self : list Orderpoint.t)
    : list Orderpoint.t :=
  sorted_orderpoints env self.

Definition _product_available (env : Env) (location : Location.t)
    (products : list Product.t) : list (positive * Quantities.t) :=
  (λ product, (Product.id product, product_quantities env location product))
    <$> products.

Definition _compute_quantities_dict (env : Env) (locations : list Location.t)
    (products : list Product.t) : quantities_dict :=
  foldl
    (λ (qties : quantities_dict) location,
       let qties_on_location := default ∅ (qties !! Location.id location) in
       <[Location.id location :=
           foldl (λ (d : gmap positive Quantities.t) item, <[item.1 := item.2]> d)
             qties_on_location (_product_available env location products)]>
         qties)
    ∅ locations.

(** [self.location_id | self.location_src_id] *)
Definition orderpoints_locations (self : list Orderpoint.t) : list Location.t :=
  unique_by Location.id ∅
    ((Orderpoint.location_id <$> self) ++ omap Orderpoint.location_src_id self).

(** The products of all waiting moves. *)
Definition moves_products (moves_by_location : gmap positive (list Move.t))
    : list Product.t :=
  unique_by Product.id ∅
    (mjoin (moves_product_id <$> (map_to_list moves_by_location).*2)).

Definition _get_qties_to_replenish (env : Env) (self : list Orderpoint.t)
    (moves_by_location : gmap positive (list Move.t))
    : result to_replenish_dict :=
  let products := moves_products moves_by_location in
  let qties_on_locations :=
    _compute_quantities_dict env (orderpoints_locations self) products in
  final ← foldlM (replenish_orderpoint qties_on_locations moves_by_location)
             loop_init self;
  Ok (qties_to_replenish final).

Definition __prepare_procurements (env : Env) (self : list Orderpoint.t)
    (moves_by_location : gmap positive (list Move.t))
    : result (list Procurement.t) :=
  qties_to_replenish_by_orderpoint ←
    _get_qties_to_replenish env self moves_by_location;
  foldlM
    (λ procurements (item : Orderpoint.t * list (Product.t * Q)),
       let '(orderpoint, qties_to_replenish) := item in
       let proc_vals := _prepare_procurement_values env orderpoint in
       foldlM
         (λ procurements (pq : Product.t * Q),
            let '(product, qty) := pq in
            moves ← getitem moves_by_location
                      (Location.id (Orderpoint.location_id orderpoint));
            let date_planned := replenishment_date moves product in
            Ok (procurements ++
                [_prepare_procurement env orderpoint product qty date_planned
                   proc_vals]))
         procurements qties_to_replenish)
    [] qties_to_replenish_by_orderpoint.

Definition _prepare_procurements (env : Env) (self : list Orderpoint.t)
    (products : option (list Product.t)) : result (list Procurement.t) :=
  let moves_by_location :=
    _find_potential_moves_to_replenish_by_location env self products in
  __prepare_procurements env (_sort_orderpoints env self) moves_by_location.

Definition _prepare_to_assign_replenishment_move_domain
    (self : list Orderpoint.t) : domain :=
  [ Term "state" "in" (VStrs ["confirmed"; "partially_available"]);
    Term "procure_method" "=" (VStr "make_to_stock");
    Term "location_orderpoint_id" "in" (VIds (Orderpoint.id <$> self)) ]%string.

Definition _assign_replenishment_moves (self : list Orderpoint.t) (w : World)
    : World :=
  let domain := _prepare_to_assign_replenishment_move_domain self in
  let moves_to_assign :=
    search_moves (db w) domain "priority desc, date asc, id asc" in
  foldl
    (λ w moves_chunk,
       {| db := action_assign moves_chunk (db w);
          effects := effects w ++ [ActionAssign moves_chunk] |})
    w (split_every 100 (Move.id <$> moves_to_assign)).

Definition _after_replenishment (self : list Orderpoint.t) (w : World) : World :=
  _assign_replenishment_moves self w.

Definition run_replenishment (self : list Orderpoint.t)
    (products : option (list Product.t)) (w : World) : result World :=
  procurements ← _prepare_procurements (db w) self products;
  match procurements with
  | [] => Ok w
  | _ =>
      let w :=
        {| db := procurement_run procurements (db w);
           effects := effects w ++ [ProcurementRun procurements] |} in
      Ok (_after_replenishment self w)
  end.

Definition _prepare_orderpoint_domain_location (location_ids : list positive)
    (location_field : option string) : domain :=
  let ids := location_ids in
  let location_field :=
    match location_field with
    | None | Some EmptyString => "location_id"%string
    | Some location_field => location_field
    end in
  [Term location_field "parent_of" (VIds ids)].

Definition _prepare_orderpoint_domain (trigger : string)
    (locations : option (list Location.t)) (location_field : option string)
    : domain :=
  let domain := [Term "trigger" "=" (VStr trigger)] in
  if truthy locations
  then expression_AND
         [domain;
          _prepare_orderpoint_domain_location
            (Location.id <$> default [] locations) location_field]
  else domain.

Definition _get_orderpoints (env : Env) (trigger : string)
    (locations : option (list Location.t)) (location_field : option string)
    : list Orderpoint.t :=
  let domain := _prepare_orderpoint_domain trigger locations location_field in
  search_orderpoints env domain.

Definition run_auto_replenishment (products : list Product.t)
    (locations : list Location.t) (location_field : option string) (w : World)
    : result World :=
  match locations, products with
  | [], _ | _, [] => Ok w
  | _, _ =>
      let self := _get_orderpoints (db w) "auto" (Some locations) location_field in
      run_replenishment self (Some products) w
  end.

Definition run_cron_replenishment (location_ids : option (list Location.t))
    (w : World) : result World :=
  let self := _get_orderpoints (db w) "cron" location_ids None in
  run_replenishment self None w.

End Methods.

(** ** Vocabulary of the statements *)

(** [qties_on_locations[location][product]], when both keys are present. *)
Definition lookup_quantities (qties_on_locations : quantities_dict)
    (location : Location.t) (product : Product.t) : option Quantities.t :=
  qties_on_locations !! Location.id location ≫= (.!! Product.id product).

(** What is available at a source location: forecast minus incoming. *)
Definition available_at_source (qties_on_src : Quantities.t) : Q :=
  Quantities.virtual_available qties_on_src - Quantities.incoming_qty qties_on_src.

(** The deficit at a destination: what brings a negative forecast back to 0. *)
Definition deficit (qties_on_dest : Quantities.t) : Q :=
  Qmax 0 (- Quantities.virtual_available qties_on_dest).

(** The reconciliation formula as the specification words it: target stock
    level minus already replenished minus available at source, clamped to
    zero. *)
Definition spec_fill_up_quantity (target already_replenished available : Q) : Q :=
  Qmax 0 (target - already_replenished - available).

(** An orderpoint passes the route constraint when it has no route or when
    one rule of its route has the orderpoint's location as destination. *)
Definition route_serves_location (orderpoint : Orderpoint.t) : Prop :=
  match Orderpoint.route_id orderpoint with
  | None => True
  | Some route =>
      ∃ rule, rule ∈ Route.rule_ids route
              ∧ Location.id (Rule.location_id rule)
                = Location.id (Orderpoint.location_id orderpoint)
  end.

(** The orderpoints that can replenish at all. *)
Definition can_replenish (orderpoint : Orderpoint.t) : Prop :=
  Orderpoint.replenish_method orderpoint = "fill_up"%string
  ∧ is_Some (Orderpoint.location_src_id orderpoint).

(** The sequence of (orderpoint, product) pairs the nested loops of
    [_get_qties_to_replenish] go through, in order. *)
Definition iteration (self : list Orderpoint.t)
    (moves_by_location : gmap positive (list Move.t))
    : list (Orderpoint.t * Product.t) :=
  mjoin
    ((λ orderpoint : Orderpoint.t,
        match moves_by_location !! Location.id (Orderpoint.location_id orderpoint) with
        | None => []
        | Some moves => pair orderpoint <$> moves_product_id moves
        end) <$> self).

Definition replenish_pair (qties_on_locations : quantities_dict)
    (st : loop_state) (item : Orderpoint.t * Product.t) : result loop_state :=
  replenish_product qties_on_locations item.1 st item.2.

(** The invariant of the loop: what has been replenished for a location
    and a product is non-negative and within the deficit there; recorded
    quantities are positive and recorded orderpoints can replenish. *)
Definition loop_inv (qties : quantities_dict) (st : loop_state) : Prop :=
  (∀ location pid, 0 <= replenished_get (qties_replenished st) location pid)
  ∧ (∀ location pid qd,
       qties !! location ≫= (.!! pid) = Some qd →
       replenished_get (qties_replenished st) location pid <= deficit qd)
  ∧ Forall (λ entry, can_replenish entry.1 ∧ Forall (λ item, 0 < item.2) entry.2)
      (qties_to_replenish st).

(** Half the rounding precision of the product's unit of measure: the
    threshold from which a quantity compares different from zero. *)
Definition half_precision (product : Product.t) : Q :=
  Uom.rounding (Product.uom_id product) * (1 # 2).

(** ** A small warehouse

    One shelf that is short of ten pairs of shoes, and three reserves that
    can feed it: reserve A holds three pairs, reserve B holds twenty of which
    five are still incoming, reserve C is itself short of two. *)
Module Example.

Definition unit_uom : Uom.t := {| Uom.id := 1; Uom.rounding := 1 # 100 |}.
Definition shoes : Product.t := {| Product.id := 1; Product.uom_id := unit_uom |}.

Definition shelf : Location.t :=
  {| Location.id := 20; Location.display_name := "WH/Stock/Shelf";
     Location.parent_path := "1/7/8/20/" |}.
Definition reserve_a : Location.t :=
  {| Location.id := 30; Location.display_name := "WH/Reserve A";
     Location.parent_path := "1/7/30/" |}.
Definition reserve_b : Location.t :=
  {| Location.id := 31; Location.display_name := "WH/Reserve B";
     Location.parent_path := "1/7/31/" |}.
Definition reserve_c : Location.t :=
  {| Location.id := 32; Location.display_name := "WH/Reserve C";
     Location.parent_path := "1/7/32/" |}.

Definition route_from (id : positive) (name : string) (src dest : Location.t)
    : Route.t :=
  {| Route.id := id; Route.display_name := name;
     Route.rule_ids :=
       [ {| Rule.id := id; Rule.location_id := dest;
            Rule.location_src_id := Some src;
            Rule.procure_method := "make_to_stock" |} ] |}.

Definition route_a : Route.t := route_from 1 "Reserve A to Shelf" reserve_a shelf.
Definition route_b : Route.t := route_from 2 "Reserve B to Shelf" reserve_b shelf.
Definition route_c : Route.t := route_from 3 "Reserve C to Shelf" reserve_c shelf.
(** A route whose only rule delivers to reserve A, not to the shelf. *)
Definition route_elsewhere : Route.t :=
  route_from 4 "Reserve B to Reserve A" reserve_b reserve_a.

Definition orderpoint_on (id : positive) (name : string) (location : Location.t)
    (route : option Route.t) (src : option Location.t) (method : string)
    : Orderpoint.t :=
  {| Orderpoint.id := id; Orderpoint.name := name; Orderpoint.company_id := 1;
     Orderpoint.location_id := location; Orderpoint.trigger := "auto";
     Orderpoint.replenish_method := method; Orderpoint.sequence := 10;
     Orderpoint.route_id := route; Orderpoint.group_id := None;
     Orderpoint.location_src_id := src; Orderpoint.active := true;
     Orderpoint.priority := Some "0"%string |}.

Definition from_a := orderpoint_on 1 "OP/A" shelf (Some route_a) (Some reserve_a) "fill_up".
Definition from_b := orderpoint_on 2 "OP/B" shelf (Some route_b) (Some reserve_b) "fill_up".
Definition from_c := orderpoint_on 3 "OP/C" shelf (Some route_c) (Some reserve_c) "fill_up".
Definition no_route := orderpoint_on 4 "OP/D" shelf None None "fill_up".
Definition bad_route :=
  orderpoint_on 5 "OP/E" shelf (Some route_elsewhere) (Some reserve_b) "fill_up".
Definition other_method :=
  orderpoint_on 6 "OP/F" shelf (Some route_b) (Some reserve_b) "top_up".

(** An orderpoint on reserve A, fed from reserve B. *)
Definition to_reserve :=
  orderpoint_on 7 "OP/G" reserve_a (Some route_elsewhere) (Some reserve_b) "fill_up".

Definition quantities (virtual_available incoming_qty : Q) : Quantities.t :=
  {| Quantities.qty_available := virtual_available - incoming_qty;
     Quantities.free_qty := virtual_available - incoming_qty;
     Quantities.incoming_qty := incoming_qty;
     Quantities.outgoing_qty := 0;
     Quantities.virtual_available := virtual_available |}.

Definition on_shelf := quantities (-10) 0.
Definition in_reserve_a := quantities 3 0.
Definition in_reserve_b := quantities 20 5.
Definition in_reserve_c := quantities (-2) 0.

Definition stock (location : Location.t) (product : Product.t) : Quantities.t :=
  if decide (Location.id location = 20%positive) then on_shelf
  else if decide (Location.id location = 30%positive) then in_reserve_a
  else if decide (Location.id location = 31%positive) then in_reserve_b
  else if decide (Location.id location = 32%positive) then in_reserve_c
  else quantities 0 0.

Definition waiting_move : Move.t :=
  {| Move.id := 1; Move.product_id := shoes; Move.location_id := shelf |}.
Definition replenishment_move : Move.t :=
  {| Move.id := 2; Move.product_id := shoes; Move.location_id := reserve_a |}.

(** A database that never changes and always reports the stock above. *)
Definition orm : ORM :=
  {| Env := unit;
     product_quantities := λ _, stock;
     search_orderpoints := λ _ _, [from_a; from_b];
     sorted_orderpoints := λ _ self, self;
     read_group_moves := λ _ _, [(shelf, [waiting_move])];
     search_moves := λ _ _ _, [replenishment_move];
     procurement_run := λ _ env, env;
     action_assign := λ _ env, env;
     now := λ _, 0%Z;
     get_closest_warehouse := λ _ _, Some 1%positive;
     replenishment_date := λ _ _, None;
     get_source_location_from_route := λ _ _ _ _, None;
     expression_AND := mjoin;
     expression_OR := mjoin |}.

Definition moves_by_location : gmap positive (list Move.t) :=
  {[ 20%positive := [waiting_move] ]}.

Definition qties_on_locations (self : list Orderpoint.t) : quantities_dict :=
  @_compute_quantities_dict orm tt (orderpoints_locations self)
    (moves_products moves_by_location).

Definition world : @World orm := @Build_World orm tt [].

(** The loop state after [from_a] and [from_b] have been served. *)
Definition served : loop_state :=
  {| qties_replenished := replenished_add (replenished_add ∅ 20 1 3) 20 1 7;
     qties_to_replenish := [(from_a, [(shoes, 3)]); (from_b, [(shoes, 7)])] |}.

End Example.

(** Evaluation of a closed statement about the example. *)
Ltac evaluate :=
  vm_compute;
  first [ reflexivity | discriminate | (intros ?; discriminate)
        | (intros Hle; apply Hle; reflexivity) ].

(** ** Parent locations *)

(** The two location fields of an orderpoint that
    [_is_location_parent_of] is called with. *)
Inductive location_field_name : Type :=
  | field_location_id
  | field_location_src_id.

(** [getattr(self, location_field)]: the locations of the recordset. *)
Definition orderpoints_field (self : list Orderpoint.t)
    (location_field : location_field_name) : list Location.t :=
  match location_field with
  | field_location_id =>
      unique_by Location.id ∅ (Orderpoint.location_id <$> self)
  | field_location_src_id =>
      unique_by Location.id ∅ (omap Orderpoint.location_src_id self)
  end.

(** The loop of [_is_location_parent_of]: [Some true] at the first parent
    whose path starts the path of [location]; falling off the loop is
    [None]. *)
Fixpoint is_parent_loop (parents : list Location.t) (location : Location.t)
    : option bool :=
  match parents with
  | [] => None
  | parent_location :: rest =>
      if String.prefix (Location.parent_path parent_location)
           (Location.parent_path location)
      then Some true
      else is_parent_loop rest location
  end.

Definition _is_location_parent_of (self : list Orderpoint.t)
    (location : Location.t) (location_field : location_field_name)
    : option bool :=
  is_parent_loop (orderpoints_field self location_field) location.

(** ** More vocabulary *)

(** A recordset holds one record per id. *)
Definition one_record_per_id (self : list Orderpoint.t) : Prop :=
  ∀ o1 o2, o1 ∈ self → o2 ∈ self →
           Orderpoint.id o1 = Orderpoint.id o2 → o1 = o2.

(** The procurements one entry of the result dictionary stands for. *)
Definition entry_procurements `{ORM} (env : Env)
    (moves_by_location : gmap positive (list Move.t))
    (entry : Orderpoint.t * list (Product.t * Q)) : list Procurement.t :=
  let moves :=
    default [] (moves_by_location
                  !! Location.id (Orderpoint.location_id entry.1)) in
  (λ item : Product.t * Q,
     _prepare_procurement env entry.1 item.1 item.2
       (replenishment_date moves item.1)
       (_prepare_procurement_values env entry.1)) <$> entry.2.

(** All waiting moves are of products whose unit of measure has a positive
    rounding precision. *)
Definition positive_roundings (moves_by_location : gmap positive (list Move.t))
    : Prop :=
  ∀ location moves move,
    moves_by_location !! location = Some moves → move ∈ moves →
    0 < Uom.rounding (Product.uom_id (Move.product_id move)).

(** ** More of the small warehouse *)
Module Example2.

(** A bin on the shelf. *)
Definition bin : Location.t :=
  {| Location.id := 21; Location.display_name := "WH/Stock/Shelf/Bin";
     Location.parent_path := "1/7/8/20/21/" |}.

(** The same database on a day without any waiting move. *)
Definition idle_orm : ORM :=
  {| Env := unit;
     product_quantities := λ _, Example.stock;
     search_orderpoints := λ _ _, [Example.from_a; Example.from_b];
     sorted_orderpoints := λ _ self, self;
     read_group_moves := λ _ _, [];
     search_moves := λ _ _ _, [Example.replenishment_move];
     procurement_run := λ _ env, env;
     action_assign := λ _ env, env;
     now := λ _, 0%Z;
     get_closest_warehouse := λ _ _, Some 1%positive;
     replenishment_date := λ _ _, None;
     get_source_location_from_route := λ _ _ _ _, None;
     expression_AND := mjoin;
     expression_OR := mjoin |}.

Definition idle_world : @World idle_orm := @Build_World idle_orm tt [].

(** The state after replenishing the shelf from reserves A and B. *)
Definition after_run : @World Example.orm :=
  match @run_replenishment Example.orm [Example.from_a; Example.from_b] None
          Example.world with
  | Ok w => w
  | Raise _ => Example.world
  end.

End Example2.

(** ** The quantity computation and the loop in binary64 arithmetic

    The same source lines as above ([_get_qty_to_replenish_fill_up],
    [_get_qty_to_replenish] and the loop of [_get_qties_to_replenish]), with
    the quantities as the IEEE-754 doubles Python computes with: [abs], [-],
    [min] and [+=] are the operations on doubles.  The comparison of the
    framework is applied to the exact value of the double. *)

Set Warnings "-inexact-float".

Module IEEE.

Module Quantities.
Record t : Type :=
  { qty_available : float;
    free_qty : float;
    incoming_qty : float;
    outgoing_qty : float;
    virtual_available : float }.
End Quantities.

Abbreviation quantities_dict := (gmap positive (gmap positive Quantities.t)).

(** The rational a finite double stands for. *)
Definition value (f : float) : option Q :=
  match Prim2SF f with
  | S754_zero _ => Some 0
  | S754_finite negative mantissa exponent =>
      let magnitude := inject_Z (Z.pos mantissa) * Qpower 2 exponent in
      Some (if negative then - magnitude else magnitude)
  | S754_infinity _ | S754_nan => None
  end.

(** [float_compare(value1, value2, precision_rounding=...)] on a double:
    the precision is checked first; rounding a NaN or an infinity to an
    integer raises. *)
Definition float_compare (value1 : float) (value2 precision_rounding : Q)
    : result Z :=
  _ ← float_utils._float_check_precision precision_rounding;
  match Prim2SF value1 with
  | S754_nan => Raise ValueError
  | S754_infinity _ => Raise OverflowError
  | _ => float_utils.float_compare (default 0 (value value1)) value2
           precision_rounding
  end.

(** The builtin [min(a, b)]: [b] when [b < a], otherwise [a]. *)
Definition min (a b : float) : float :=
  if PrimFloat.ltb b a then b else a.

Definition _get_qty_to_replenish_fill_up (self : Orderpoint.t)
    (product : Product.t) (qties_on_locations : quantities_dict)
    (qty_already_replenished : float) : result float :=
  match Orderpoint.location_src_id self with
  | None => Ok PrimFloat.zero
  | Some location_src_id =>
      qties_on_dest ←
        (on_location ← getitem qties_on_locations
                         (Location.id (Orderpoint.location_id self));
         getitem on_location (Product.id product));
      let virtual_available_on_dest := Quantities.virtual_available qties_on_dest in
      cmp_dest ← float_compare virtual_available_on_dest 0
                   (Uom.rounding (Product.uom_id product));
      if (cmp_dest >=? 0)%Z then Ok PrimFloat.zero
      else
        let virtual_available_on_dest := PrimFloat.abs virtual_available_on_dest in
        qties_on_src ←
          (on_location ← getitem qties_on_locations (Location.id location_src_id);
           getitem on_location (Product.id product));
        let virtual_available_on_src :=
          PrimFloat.sub (Quantities.virtual_available qties_on_src)
            (Quantities.incoming_qty qties_on_src) in
        cmp_src ← float_compare virtual_available_on_src 0
                    (Uom.rounding (Product.uom_id product));
        if (cmp_src <=? 0)%Z then Ok PrimFloat.zero
        else
          let qty_to_replenish :=
            PrimFloat.sub virtual_available_on_dest qty_already_replenished in
          Ok (min qty_to_replenish virtual_available_on_src)
  end.

Definition _get_qty_to_replenish (self : Orderpoint.t) (product : Product.t)
    (qties_on_locations : quantities_dict) (qty_already_replenished : float)
    : result float :=
  if String.eqb (Orderpoint.replenish_method self) "fill_up"
  then _get_qty_to_replenish_fill_up self product qties_on_locations
         qty_already_replenished
  else Ok PrimFloat.zero.

(** [qties_replenished], read with the default 0. *)
Definition replenished_get (qties_replenished : gmap positive (gmap positive float))
    (location product : positive) : float :=
  default PrimFloat.zero (qties_replenished !! location ≫= (.!! product)).

(** [qties_replenished_for_location[product] += qty_to_replenish] *)
Definition replenished_add (qties_replenished : gmap positive (gmap positive float))
    (location product : positive) (qty : float)
    : gmap positive (gmap positive float) :=
  <[location :=
      <[product :=
          PrimFloat.add (replenished_get qties_replenished location product) qty]>
        (default ∅ (qties_replenished !! location))]> qties_replenished.

Abbreviation to_replenish_dict :=
  (list (Orderpoint.t * list (Product.t * float))).

Fixpoint to_replenish_append (d : to_replenish_dict) (orderpoint : Orderpoint.t)
    (item : Product.t * float) : to_replenish_dict :=
  match d with
  | [] => [(orderpoint, [item])]
  | (o, items) :: d' =>
      if decide (Orderpoint.id o = Orderpoint.id orderpoint)
      then (o, items ++ [item]) :: d'
      else (o, items) :: to_replenish_append d' orderpoint item
  end.

Record loop_state : Type :=
  { qties_replenished : gmap positive (gmap positive float);
    qties_to_replenish : to_replenish_dict }.

Definition loop_init : loop_state :=
  {| qties_replenished := ∅; qties_to_replenish := [] |}.

(** The body of the inner loop. *)
Definition replenish_product (qties_on_locations : quantities_dict)
    (orderpoint : Orderpoint.t) (st : loop_state) (product : Product.t)
    : result loop_state :=
  let location := Location.id (Orderpoint.location_id orderpoint) in
  qty_to_replenish ←
    _get_qty_to_replenish orderpoint product qties_on_locations
      (replenished_get (qties_replenished st) location (Product.id product));
  cmp ← float_compare qty_to_replenish 0 (Uom.rounding (Product.uom_id product));
  if (cmp >? 0)%Z
  then Ok {| qties_replenished :=
               replenished_add (qties_replenished st) location
                 (Product.id product) qty_to_replenish;
             qties_to_replenish :=
               to_replenish_append (qties_to_replenish st) orderpoint
                 (product, qty_to_replenish) |}
  else Ok st.

(** The body of the outer loop. *)
Definition replenish_orderpoint (qties_on_locations : quantities_dict)
    (moves_by_location : gmap positive (list Move.t))
    (st : loop_state) (orderpoint : Orderpoint.t) : result loop_state :=
  match moves_by_location !! Location.id (Orderpoint.location_id orderpoint) with
  | None => Ok st
  | Some moves =>
      foldlM (replenish_product qties_on_locations orderpoint) st
        (moves_product_id moves)
  end.

(** The loop of [_get_qties_to_replenish]; the quantities dictionary, which
    the method reads from the database, is an argument. *)
Definition _get_qties_to_replenish (qties_on_locations : quantities_dict)
    (self : list Orderpoint.t)
    (moves_by_location : gmap positive (list Move.t))
    : result to_replenish_dict :=
  final ← foldlM (replenish_orderpoint qties_on_locations moves_by_location)
             loop_init self;
  Ok (qties_to_replenish final).


(** The shelf short of 0.11, reserve A with 0.04, reserves B and C with 5. *)
Definition quantities (virtual_available : float) : Quantities.t :=
  {| Quantities.qty_available := virtual_available;
     Quantities.free_qty := virtual_available;
     Quantities.incoming_qty := PrimFloat.zero;
     Quantities.outgoing_qty := PrimFloat.zero;
     Quantities.virtual_available := virtual_available |}.



End IEEE.

(** ** Facts about the float helpers *)

Example float_compare_ex1 : float_compare (4 # 10) 0 1 = Ok 0%Z.
Proof. reflexivity. Qed.
Example float_compare_ex2 : float_compare (1 # 2) 0 1 = Ok 1%Z.
Proof. reflexivity. Qed.
Example float_compare_ex3 : float_compare (- (1 # 2)) 0 1 = Ok (-1)%Z.
Proof. reflexivity. Qed.
Example float_compare_ex4 : float_compare (-3) 0 (1 # 100) = Ok (-1)%Z.
Proof. reflexivity. Qed.
Example float_compare_ex5 : float_compare 3 0 0 = Raise AssertionError.
Proof. reflexivity. Qed.

Section float_facts.

Lemma Qnum_sgn_pos (x : Q) : Z.sgn (Qnum x) = 1%Z ↔ 0 < x.
Proof.
  destruct x as [n d]. unfold Qlt. simpl. rewrite Z.mul_1_r.
  apply Z.sgn_pos_iff.
Qed.

Lemma Qnum_sgn_neg (x : Q) : Z.sgn (Qnum x) = (-1)%Z ↔ x < 0.
Proof.
  destruct x as [n d]. unfold Qlt. simpl. rewrite Z.mul_1_r.
  apply Z.sgn_neg_iff.
Qed.

Lemma Qnum_sgn_comp (x y : Q) : x == y → Z.sgn (Qnum x) = Z.sgn (Qnum y).
Proof.
  unfold Qeq. intros H.
  assert (Hx : Z.sgn (Qnum x) = Z.sgn (Qnum x * QDen y)).
  { rewrite Z.sgn_mul. simpl. lia. }
  assert (Hy : Z.sgn (Qnum y) = Z.sgn (Qnum y * QDen x)).
  { rewrite Z.sgn_mul. simpl. lia. }
  congruence.
Qed.

Lemma round_comp (x y : Q) : x == y → round x = round y.
Proof.
  intros H. unfold round.
  rewrite (Qnum_sgn_comp x y H).
  f_equal. apply Qfloor_comp. rewrite H. reflexivity.
Qed.

Lemma round_floor_nonneg (x : Q) : (0 ≤ Qfloor (Qabs x + (1 # 2)))%Z.
Proof.
  change 0%Z with (Qfloor 0). apply Qfloor_resp_le.
  pose proof (Qabs_nonneg x). lra.
Qed.

Lemma round_inject_Z (k : Z) : round (inject_Z k) = k.
Proof.
  unfold round. simpl Qnum.
  assert (Hf : Qfloor (Qabs (inject_Z k) + (1 # 2)) = Z.abs k).
  { assert (Ha : Qabs (inject_Z k) == inject_Z (Z.abs k)).
    { unfold inject_Z. rewrite <- Zabs_Qabs. reflexivity. }
    rewrite (Qfloor_comp _ (inject_Z (Z.abs k) + (1 # 2))) by (rewrite Ha; reflexivity).
    apply Z.le_antisymm.
    - assert (Hlt : inject_Z (Qfloor (inject_Z (Z.abs k) + (1 # 2)))
                    < inject_Z (Z.abs k + 1)).
      { eapply Qle_lt_trans; [apply Qfloor_le|].
        rewrite inject_Z_plus. change (inject_Z 1) with 1. lra. }
      rewrite <- Zlt_Qlt in Hlt. lia.
    - rewrite <- (Qfloor_Z (Z.abs k)) at 1. apply Qfloor_resp_le. lra. }
  rewrite Hf. lia.
Qed.

Lemma round_pos (x : Q) : (0 < round x)%Z ↔ 1 # 2 <= x.
Proof.
  unfold round. pose proof (round_floor_nonneg x) as Hnn. split.
  - intros H.
    assert (Hs : Z.sgn (Qnum x) = 1%Z) by (pose proof (Z.sgn_spec (Qnum x)); nia).
    assert (Hf : (1 ≤ Qfloor (Qabs x + (1 # 2)))%Z) by nia.
    apply Qnum_sgn_pos in Hs.
    rewrite Zle_Qle in Hf. pose proof (Qfloor_le (Qabs x + (1 # 2))) as Hle.
    pose proof (Qabs_pos x) as Ha. change (inject_Z 1) with 1 in Hf. lra.
  - intros H.
    assert (Hs : Z.sgn (Qnum x) = 1%Z) by (apply Qnum_sgn_pos; lra).
    rewrite Hs.
    assert (Hf : (Qfloor 1 ≤ Qfloor (Qabs x + (1 # 2)))%Z).
    { apply Qfloor_resp_le. pose proof (Qabs_pos x) as Ha. lra. }
    change (Qfloor 1) with 1%Z in Hf. lia.
Qed.

Lemma round_neg (x : Q) : (round x < 0)%Z ↔ x <= - (1 # 2).
Proof.
  unfold round. pose proof (round_floor_nonneg x) as Hnn. split.
  - intros H.
    assert (Hs : Z.sgn (Qnum x) = (-1)%Z) by (pose proof (Z.sgn_spec (Qnum x)); nia).
    assert (Hf : (1 ≤ Qfloor (Qabs x + (1 # 2)))%Z) by nia.
    apply Qnum_sgn_neg in Hs.
    rewrite Zle_Qle in Hf. pose proof (Qfloor_le (Qabs x + (1 # 2))) as Hle.
    pose proof (Qabs_neg x) as Ha. change (inject_Z 1) with 1 in Hf. lra.
  - intros H.
    assert (Hs : Z.sgn (Qnum x) = (-1)%Z) by (apply Qnum_sgn_neg; lra).
    rewrite Hs.
    assert (Hf : (Qfloor 1 ≤ Qfloor (Qabs x + (1 # 2)))%Z).
    { apply Qfloor_resp_le. pose proof (Qabs_neg x) as Ha. lra. }
    change (Qfloor 1) with 1%Z in Hf. lia.
Qed.

End float_facts.

Section float_compare_facts.

Lemma float_check_precision_pos (r : Q) :
  0 < r → _float_check_precision r = Ok r.
Proof.
  intros Hr. unfold _float_check_precision.
  destruct (Qlt_le_dec 0 r) as [_|Hle]; [reflexivity | lra].
Qed.

Lemma float_check_precision_nonpos (r : Q) :
  r <= 0 → _float_check_precision r = Raise AssertionError.
Proof.
  intros Hr. unfold _float_check_precision.
  destruct (Qlt_le_dec 0 r) as [Hlt|_]; [lra | reflexivity].
Qed.

Lemma float_round_pos (v r : Q) :
  0 < r → ∃ w, float_round v r = Ok w ∧ w == inject_Z (round (v / r)) * r.
Proof.
  intros Hr. unfold float_round. rewrite (float_check_precision_pos r Hr).
  cbn [mbind result_bind].
  assert (Hr0 : Qeq_bool r 0 = false).
  { apply not_true_is_false. intros H. apply Qeq_bool_eq in H. lra. }
  rewrite Hr0. cbn [orb].
  destruct (Qeq_bool v 0) eqn:Hv.
  - exists 0. split; [reflexivity|].
    apply Qeq_bool_eq in Hv.
    assert (Hz : v / r == inject_Z 0) by (rewrite Hv; reflexivity).
    rewrite (round_comp _ _ Hz), round_inject_Z. reflexivity.
  - eexists. split; reflexivity.
Qed.

Lemma float_round_zero (r : Q) : 0 < r → float_round 0 r = Ok 0.
Proof.
  intros Hr. unfold float_round. rewrite (float_check_precision_pos r Hr).
  cbn [mbind result_bind]. rewrite orb_true_r. reflexivity.
Qed.

Lemma inject_Z_mult_sign (k : Z) (r : Q) :
  0 < r →
  (inject_Z k * r < 0 ↔ (k < 0)%Z) ∧ (Qabs (inject_Z k * r) < r ↔ k = 0%Z).
Proof.
  intros Hr. split.
  - split; intros H.
    + destruct (Z_lt_le_dec k 0) as [Hk|Hk]; [assumption|].
      rewrite Zle_Qle in Hk. change (inject_Z 0) with 0 in Hk. nra.
    + rewrite Zlt_Qlt in H. change (inject_Z 0) with 0 in H. nra.
  - rewrite Qabs_Qlt_condition. split.
    + intros [H1 H2].
      assert (Hlo : (-1 < k)%Z).
      { rewrite Zlt_Qlt. change (inject_Z (-1)) with (-1). nra. }
      assert (Hhi : (k < 1)%Z).
      { rewrite Zlt_Qlt. change (inject_Z 1) with 1. nra. }
      lia.
    + intros ->. change (inject_Z 0) with 0. lra.
Qed.

Lemma float_is_zero_multiple (d r : Q) (k : Z) :
  0 < r → d == inject_Z k * r →
  float_is_zero d r = Ok (bool_decide (k = 0%Z)).
Proof.
  intros Hr Hd. unfold float_is_zero.
  rewrite (float_check_precision_pos r Hr). cbn [mbind result_bind].
  destruct (float_round_pos d r Hr) as (w & -> & Hw). cbn [mbind result_bind].
  assert (Hk : d / r == inject_Z k).
  { rewrite Hd. apply Qdiv_mult_l. lra. }
  rewrite (round_comp _ _ Hk), round_inject_Z in Hw.
  destruct (inject_Z_mult_sign k r Hr) as [_ Habs].
  destruct (Qlt_le_dec (Qabs w) r) as [Hlt|Hle].
  - rewrite Hw in Hlt. apply Habs in Hlt. subst k. reflexivity.
  - rewrite bool_decide_eq_false_2; [reflexivity|].
    intros ->. rewrite Hw in Hle. change (inject_Z 0) with 0 in Hle.
    assert (Hz : Qabs (0 * r) == 0) by (rewrite Qmult_0_l; reflexivity).
    rewrite Hz in Hle. lra.
Qed.

(** Against zero, the comparison is the sign of the rounded quotient. *)
Lemma float_compare_zero (v r : Q) :
  0 < r → float_compare v 0 r = Ok (Z.sgn (round (v / r))).
Proof.
  intros Hr. unfold float_compare.
  rewrite (float_check_precision_pos r Hr). cbn [mbind result_bind].
  destruct (float_round_pos v r Hr) as (w & -> & Hw). cbn [mbind result_bind].
  rewrite (float_round_zero r Hr). cbn [mbind result_bind].
  set (k := round (v / r)) in *.
  assert (Hd : w - 0 == inject_Z k * r) by (rewrite Hw; ring).
  rewrite (float_is_zero_multiple (w - 0) r k Hr Hd).
  destruct (inject_Z_mult_sign k r Hr) as [Hneg _].
  case_bool_decide as Hk0; [rewrite Hk0; reflexivity|].
  destruct (Qlt_le_dec (w - 0) 0) as [Hlt|Hle].
  - rewrite Hd in Hlt. apply Hneg in Hlt.
    rewrite (Z.sgn_neg k Hlt). reflexivity.
  - assert (Hk : ¬ (k < 0)%Z) by (intros Hk; apply Hneg in Hk; lra).
    rewrite (Z.sgn_pos k) by lia. reflexivity.
Qed.

Lemma float_compare_raises (v w r : Q) :
  r <= 0 → float_compare v w r = Raise AssertionError.
Proof.
  intros Hr. unfold float_compare.
  rewrite (float_check_precision_nonpos r Hr). reflexivity.
Qed.

Lemma float_compare_Ok_precision (v w r : Q) (c : Z) :
  float_compare v w r = Ok c → 0 < r.
Proof.
  intros H. destruct (Qlt_le_dec 0 r) as [Hr|Hr]; [assumption|].
  rewrite (float_compare_raises v w r Hr) in H. discriminate.
Qed.

(** The thresholds: a value compares above zero exactly from half the
    precision on, and below zero exactly up to minus half the precision. *)
Lemma float_compare_zero_pos (v r : Q) (c : Z) :
  float_compare v 0 r = Ok c → ((0 < c)%Z ↔ r * (1 # 2) <= v).
Proof.
  intros H. pose proof (float_compare_Ok_precision _ _ _ _ H) as Hr.
  rewrite (float_compare_zero v r Hr) in H. injection H as <-.
  assert (Hs : (0 < Z.sgn (round (v / r)) ↔ 0 < round (v / r))%Z)
    by (destruct (round (v / r)); simpl; lia).
  rewrite Hs, round_pos. split; intros Hv.
  - apply (Qmult_le_r _ _ r) in Hv; [|assumption].
    rewrite (Qmult_comm (v / r)), Qmult_div_r in Hv by lra. lra.
  - apply Qle_shift_div_l; [assumption|]. lra.
Qed.

Lemma float_compare_zero_neg (v r : Q) (c : Z) :
  float_compare v 0 r = Ok c → ((c < 0)%Z ↔ v <= - (r * (1 # 2))).
Proof.
  intros H. pose proof (float_compare_Ok_precision _ _ _ _ H) as Hr.
  rewrite (float_compare_zero v r Hr) in H. injection H as <-.
  assert (Hs : (Z.sgn (round (v / r)) < 0 ↔ round (v / r) < 0)%Z)
    by (destruct (round (v / r)); simpl; lia).
  rewrite Hs, round_neg. split; intros Hv.
  - apply (Qmult_le_r _ _ r) in Hv; [|assumption].
    rewrite (Qmult_comm (v / r)), Qmult_div_r in Hv by lra. lra.
  - apply Qle_shift_div_r; [assumption|]. lra.
Qed.

End float_compare_facts.

(** ** Facts about the fill-up quantity *)

Section fill_up_facts.
Implicit Types (self : Orderpoint.t) (product : Product.t).
Implicit Types (qties : quantities_dict) (qd qs : Quantities.t).

Lemma getitem_quantities qties (location : Location.t) product qd :
  lookup_quantities qties location product = Some qd →
  (on_location ← getitem qties (Location.id location);
   getitem on_location (Product.id product)) = Ok qd.
Proof.
  unfold lookup_quantities, getitem. intros Hl.
  destruct (qties !! Location.id location) as [on_location|]; [|discriminate].
  cbn in Hl |- *. rewrite Hl. reflexivity.
Qed.

(** The three outcomes of the fill-up computation, by the two comparisons. *)
Lemma fill_up_dest_not_negative self product qties already src qd c :
  Orderpoint.location_src_id self = Some src →
  lookup_quantities qties (Orderpoint.location_id self) product = Some qd →
  float_compare (Quantities.virtual_available qd) 0
    (Uom.rounding (Product.uom_id product)) = Ok c →
  (0 ≤ c)%Z →
  _get_qty_to_replenish_fill_up self product qties already = Ok 0.
Proof.
  intros Hsrc Hd Hc Hpos. unfold _get_qty_to_replenish_fill_up.
  rewrite Hsrc, (getitem_quantities _ _ _ _ Hd). cbn [mbind result_bind].
  rewrite Hc. cbn [mbind result_bind].
  destruct (Z.geb_spec c 0); [reflexivity | lia].
Qed.

Lemma fill_up_src_not_positive self product qties already src qd qs c1 c2 :
  Orderpoint.location_src_id self = Some src →
  lookup_quantities qties (Orderpoint.location_id self) product = Some qd →
  float_compare (Quantities.virtual_available qd) 0
    (Uom.rounding (Product.uom_id product)) = Ok c1 →
  (c1 < 0)%Z →
  lookup_quantities qties src product = Some qs →
  float_compare (available_at_source qs) 0
    (Uom.rounding (Product.uom_id product)) = Ok c2 →
  (c2 ≤ 0)%Z →
  _get_qty_to_replenish_fill_up self product qties already = Ok 0.
Proof.
  intros Hsrc Hd Hc1 Hneg Hs Hc2 Hle. unfold _get_qty_to_replenish_fill_up.
  rewrite Hsrc, (getitem_quantities _ _ _ _ Hd). cbn [mbind result_bind].
  rewrite Hc1. cbn [mbind result_bind].
  destruct (Z.geb_spec c1 0); [lia|].
  rewrite (getitem_quantities _ _ _ _ Hs). cbn [mbind result_bind].
  unfold available_at_source in Hc2. rewrite Hc2. cbn [mbind result_bind].
  destruct (Z.leb_spec c2 0); [reflexivity | lia].
Qed.

Lemma fill_up_min self product qties already src qd qs c1 c2 :
  Orderpoint.location_src_id self = Some src →
  lookup_quantities qties (Orderpoint.location_id self) product = Some qd →
  float_compare (Quantities.virtual_available qd) 0
    (Uom.rounding (Product.uom_id product)) = Ok c1 →
  (c1 < 0)%Z →
  lookup_quantities qties src product = Some qs →
  float_compare (available_at_source qs) 0
    (Uom.rounding (Product.uom_id product)) = Ok c2 →
  (0 < c2)%Z →
  _get_qty_to_replenish_fill_up self product qties already
  = Ok (Qmin (Qabs (Quantities.virtual_available qd) - already)
          (available_at_source qs)).
Proof.
  intros Hsrc Hd Hc1 Hneg Hs Hc2 Hpos. unfold _get_qty_to_replenish_fill_up.
  rewrite Hsrc, (getitem_quantities _ _ _ _ Hd). cbn [mbind result_bind].
  rewrite Hc1. cbn [mbind result_bind].
  destruct (Z.geb_spec c1 0); [lia|].
  rewrite (getitem_quantities _ _ _ _ Hs). cbn [mbind result_bind].
  unfold available_at_source in Hc2 |- *. rewrite Hc2. cbn [mbind result_bind].
  destruct (Z.leb_spec c2 0); [lia | reflexivity].
Qed.

(** Inversion: a successful fill-up computation went through one of the
    three outcomes. *)
Lemma fill_up_inv self product qties already q :
  _get_qty_to_replenish_fill_up self product qties already = Ok q →
  q = 0
  ∨ ∃ src qd qs,
      Orderpoint.location_src_id self = Some src
      ∧ lookup_quantities qties (Orderpoint.location_id self) product = Some qd
      ∧ lookup_quantities qties src product = Some qs
      ∧ Quantities.virtual_available qd < 0
      ∧ 0 < available_at_source qs
      ∧ q = Qmin (Qabs (Quantities.virtual_available qd) - already)
              (available_at_source qs).
Proof.
  unfold _get_qty_to_replenish_fill_up, lookup_quantities, getitem.
  destruct (Orderpoint.location_src_id self) as [src|]; [|intros [= <-]; by left].
  destruct (qties !! Location.id (Orderpoint.location_id self))
    as [on_dest|] eqn:Hd1; cbn [mbind result_bind]; [|discriminate].
  destruct (on_dest !! Product.id product) as [qd|] eqn:Hd2;
    cbn [mbind result_bind]; [|discriminate].
  destruct (float_compare (Quantities.virtual_available qd) 0 _)
    as [c1|] eqn:Hc1; cbn [mbind result_bind]; [|discriminate].
  destruct (Z.geb_spec c1 0) as [|Hneg]; [intros [= <-]; by left|].
  destruct (qties !! Location.id src) as [on_src|] eqn:Hs1;
    cbn [mbind result_bind]; [|discriminate].
  destruct (on_src !! Product.id product) as [qs|] eqn:Hs2;
    cbn [mbind result_bind]; [|discriminate].
  destruct (float_compare _ 0 _) as [c2|] eqn:Hc2 in |- *;
    cbn [mbind result_bind]; [|discriminate].
  destruct (Z.leb_spec c2 0) as [|Hpos]; [intros [= <-]; by left|].
  intros [= <-]. right. exists src, qd, qs.
  pose proof (float_compare_Ok_precision _ _ _ _ Hc1) as Hr.
  apply float_compare_zero_neg in Hc1. apply float_compare_zero_pos in Hc2.
  apply Hc1 in Hneg. apply Hc2 in Hpos.
  unfold available_at_source.
  repeat split; try reflexivity; try assumption; try lra.
  rewrite Hs1. exact Hs2.
Qed.

End fill_up_facts.

(** ** Facts about the loops *)

Section fold_facts.
Context {A B : Type} (f : B → A → result B).

Lemma foldlM_app (b : B) (l1 l2 : list A) :
  foldlM f b (l1 ++ l2) = (b' ← foldlM f b l1; foldlM f b' l2).
Proof.
  revert b. induction l1 as [|x l1 IH]; intros b; [reflexivity|].
  cbn [foldlM app]. destruct (f b x) as [b'|e]; cbn [mbind result_bind];
    [apply IH | reflexivity].
Qed.

Lemma foldlM_invariant (P : B → Prop) (l : list A) (b b' : B) :
  (∀ b x b', x ∈ l → P b → f b x = Ok b' → P b') →
  P b → foldlM f b l = Ok b' → P b'.
Proof.
  revert b. induction l as [|x l IH]; intros b Hstep Hb.
  - intros [= <-]. exact Hb.
  - cbn [foldlM]. destruct (f b x) as [b1|e] eqn:Hf; cbn [mbind result_bind];
      [|discriminate].
    apply IH.
    + intros b2 y b3 Hy. apply Hstep. by right.
    + eapply Hstep; [by left | eassumption..].
Qed.

End fold_facts.

Section loop_facts.
Implicit Types (qties : quantities_dict) (st : loop_state).
Implicit Types (orderpoint : Orderpoint.t) (product : Product.t).

Lemma replenished_get_empty (location pid : positive) :
  replenished_get ∅ location pid = 0.
Proof. unfold replenished_get. rewrite lookup_empty. reflexivity. Qed.

Lemma replenished_get_add_eq (m : gmap positive (gmap positive Q))
    (location pid : positive) (q : Q) :
  replenished_get (replenished_add m location pid q) location pid
  = replenished_get m location pid + q.
Proof.
  unfold replenished_add. unfold replenished_get at 1.
  rewrite lookup_insert_eq. cbn. rewrite lookup_insert_eq. reflexivity.
Qed.

Lemma replenished_get_add_ne (m : gmap positive (gmap positive Q))
    (location pid location' pid' : positive) (q : Q) :
  (location, pid) ≠ (location', pid') →
  replenished_get (replenished_add m location pid q) location' pid'
  = replenished_get m location' pid'.
Proof.
  intros Hne. unfold replenished_add, replenished_get.
  destruct (decide (location = location')) as [<-|Hl].
  - rewrite lookup_insert_eq. cbn.
    rewrite lookup_insert_ne by congruence.
    destruct (m !! location); reflexivity.
  - rewrite lookup_insert_ne by assumption. reflexivity.
Qed.

(** Keys and items of the result dictionary, under an append. *)
Lemma to_replenish_append_Forall (K : Orderpoint.t → Prop)
    (I : Product.t * Q → Prop) (d : to_replenish_dict) orderpoint item :
  Forall (λ entry, K entry.1 ∧ Forall I entry.2) d →
  K orderpoint → I item →
  Forall (λ entry, K entry.1 ∧ Forall I entry.2)
    (to_replenish_append d orderpoint item).
Proof.
  intros Hd HK HI. induction Hd as [|[o items] d [Ho Hitems] Hd IH];
    cbn [to_replenish_append].
  - repeat constructor; assumption.
  - case_decide.
    + constructor; [|assumption]. split; [assumption|].
      apply Forall_app. split; [assumption | by constructor].
    + constructor; [by split | assumption].
Qed.

Lemma loop_inv_init qties : loop_inv qties loop_init.
Proof.
  unfold loop_inv, loop_init. cbn. repeat split.
  - intros. rewrite replenished_get_empty. lra.
  - intros. rewrite replenished_get_empty. unfold deficit. apply Q.le_max_l.
  - constructor.
Qed.

Lemma get_qty_to_replenish_inv orderpoint product qties already q :
  _get_qty_to_replenish orderpoint product qties already = Ok q →
  q = 0
  ∨ can_replenish orderpoint
    ∧ ∃ src qd qs,
        Orderpoint.location_src_id orderpoint = Some src
        ∧ lookup_quantities qties (Orderpoint.location_id orderpoint) product
          = Some qd
        ∧ lookup_quantities qties src product = Some qs
        ∧ Quantities.virtual_available qd < 0
        ∧ 0 < available_at_source qs
        ∧ q = Qmin (Qabs (Quantities.virtual_available qd) - already)
                (available_at_source qs).
Proof.
  unfold _get_qty_to_replenish.
  destruct (String.eqb_spec (Orderpoint.replenish_method orderpoint) "fill_up")
    as [Hm|Hm]; [|intros [= <-]; by left].
  intros Hq. apply fill_up_inv in Hq as [->|(src & qd & qs & Hsrc & Hrest)];
    [by left|].
  right. split; [|by exists src, qd, qs].
  split; [assumption|]. rewrite Hsrc. by eexists.
Qed.

(** Under the invariant the quantity computed for any orderpoint and product
    is non-negative, and it fits in what remains of the deficit. *)
Lemma get_qty_to_replenish_bounds orderpoint product qties st q :
  loop_inv qties st →
  _get_qty_to_replenish orderpoint product qties
    (replenished_get (qties_replenished st)
       (Location.id (Orderpoint.location_id orderpoint)) (Product.id product))
  = Ok q →
  0 <= q
  ∧ ∀ qd,
      lookup_quantities qties (Orderpoint.location_id orderpoint) product = Some qd →
      replenished_get (qties_replenished st)
        (Location.id (Orderpoint.location_id orderpoint)) (Product.id product) + q
      <= deficit qd.
Proof.
  intros (Hnn & Hdef & _) Hq.
  set (a := replenished_get _ _ _) in *.
  pose proof (Hnn (Location.id (Orderpoint.location_id orderpoint))
                (Product.id product)) as Ha0. fold a in Ha0.
  apply get_qty_to_replenish_inv in Hq
    as [->|(_ & src & qd & qs & _ & Hd & _ & Hva & Hav & ->)].
  - split; [lra|]. intros qd Hd. apply Hdef in Hd. fold a in Hd. lra.
  - pose proof (Hdef _ _ _ Hd) as Ha. fold a in Ha.
    assert (Hdeficit : deficit qd == - Quantities.virtual_available qd).
    { unfold deficit. apply Q.max_r. lra. }
    pose proof (Qabs_neg (Quantities.virtual_available qd)) as Habs.
    split.
    + apply Q.min_glb; lra.
    + intros qd' Hd'. rewrite Hd in Hd'. injection Hd' as <-.
      pose proof (Q.le_min_l (Qabs (Quantities.virtual_available qd) - a)
                    (available_at_source qs)). lra.
Qed.

Lemma replenish_product_inv qties orderpoint st product st' :
  loop_inv qties st →
  replenish_product qties orderpoint st product = Ok st' →
  loop_inv qties st'.
Proof.
  intros Hinv. unfold replenish_product.
  destruct (_get_qty_to_replenish _ _ _ _) as [q|] eqn:Hq;
    cbn [mbind result_bind]; [|discriminate].
  destruct (float_compare q 0 _) as [c|] eqn:Hc;
    cbn [mbind result_bind]; [|discriminate].
  destruct (Z.gtb_spec c 0) as [Hpos|_]; [|intros [= <-]; exact Hinv].
  intros [= <-].
  pose proof (float_compare_Ok_precision _ _ _ _ Hc) as Hr.
  apply float_compare_zero_pos in Hc. apply Hc in Hpos.
  assert (Hq0 : 0 < q) by lra.
  destruct (get_qty_to_replenish_bounds _ _ _ _ _ Hinv Hq) as [_ Hbound].
  assert (Hcan : can_replenish orderpoint).
  { apply get_qty_to_replenish_inv in Hq as [->|[Hcan _]]; [lra | exact Hcan]. }
  assert (Hd : ∃ qd, lookup_quantities qties (Orderpoint.location_id orderpoint)
                       product = Some qd).
  { apply get_qty_to_replenish_inv in Hq as [->|(_ & _ & qd & _ & _ & Hd & _)];
      [lra | by exists qd]. }
  destruct Hd as [qd Hd]. specialize (Hbound qd Hd).
  destruct Hinv as (Hnn & Hdef & Hrec).
  unfold loop_inv. cbn [qties_replenished qties_to_replenish].
  set (location := Location.id (Orderpoint.location_id orderpoint)) in *.
  set (pid := Product.id product) in *.
  repeat split.
  - intros location' pid'.
    destruct (decide ((location, pid) = (location', pid'))) as [[= <- <-]|Hne].
    + rewrite replenished_get_add_eq. specialize (Hnn location pid). lra.
    + rewrite replenished_get_add_ne by assumption. apply Hnn.
  - intros location' pid' qd' Hd'.
    destruct (decide ((location, pid) = (location', pid'))) as [[= <- <-]|Hne].
    + rewrite replenished_get_add_eq.
      unfold lookup_quantities in Hd. fold location pid in Hd.
      rewrite Hd in Hd'. injection Hd' as <-. exact Hbound.
    + rewrite replenished_get_add_ne by assumption. by apply Hdef.
  - apply to_replenish_append_Forall; assumption.
Qed.

Lemma replenish_pair_inv qties st item st' :
  loop_inv qties st → replenish_pair qties st item = Ok st' →
  loop_inv qties st'.
Proof. unfold replenish_pair. apply replenish_product_inv. Qed.

(** The nested loops go through [iteration] in order. *)
Lemma replenish_products_pairs qties orderpoint st (products : list Product.t) :
  foldlM (replenish_product qties orderpoint) st products
  = foldlM (replenish_pair qties) st (pair orderpoint <$> products).
Proof.
  revert st. induction products as [|product products IH]; intros st;
    [reflexivity|].
  cbn [foldlM fmap list_fmap].
  change (replenish_pair qties st (orderpoint, product))
    with (replenish_product qties orderpoint st product).
  destruct (replenish_product qties orderpoint st product) as [st'|e];
    cbn [mbind result_bind]; [apply IH | reflexivity].
Qed.

Lemma replenish_orderpoint_pairs qties
    (moves_by_location : gmap positive (list Move.t)) st orderpoint :
  replenish_orderpoint qties moves_by_location st orderpoint
  = foldlM (replenish_pair qties) st
      match moves_by_location !! Location.id (Orderpoint.location_id orderpoint) with
      | None => []
      | Some moves => pair orderpoint <$> moves_product_id moves
      end.
Proof.
  unfold replenish_orderpoint.
  destruct (moves_by_location !! _); [apply replenish_products_pairs | reflexivity].
Qed.

Lemma replenish_orderpoints_iteration qties
    (moves_by_location : gmap positive (list Move.t)) st
    (self : list Orderpoint.t) :
  foldlM (replenish_orderpoint qties moves_by_location) st self
  = foldlM (replenish_pair qties) st (iteration self moves_by_location).
Proof.
  revert st. induction self as [|orderpoint self IH]; intros st;
    [reflexivity|].
  cbn [foldlM]. rewrite replenish_orderpoint_pairs.
  unfold iteration. cbn [fmap list_fmap mjoin list_join].
  rewrite foldlM_app.
  destruct (foldlM (replenish_pair qties) st _) as [st'|e];
    cbn [mbind result_bind]; [apply IH | reflexivity].
Qed.

Lemma iteration_prefix_inv qties self
    (moves_by_location : gmap positive (list Move.t)) (n : nat) st :
  foldlM (replenish_pair qties) loop_init
    (take n (iteration self moves_by_location)) = Ok st →
  loop_inv qties st.
Proof.
  apply foldlM_invariant; [|apply loop_inv_init].
  intros b x b' _. apply replenish_pair_inv.
Qed.

End loop_facts.

(** ** The fill-up quantity *)

Section fill_up_claims.
Implicit Types (self : Orderpoint.t) (product : Product.t).
Implicit Types (qties : quantities_dict) (qd qs : Quantities.t).

Lemma float_compare_zero_sign (v r : Q) :
  0 < r →
  ∃ c, float_compare v 0 r = Ok c
       ∧ ((0 < c)%Z ↔ r * (1 # 2) <= v)
       ∧ ((c < 0)%Z ↔ v <= - (r * (1 # 2))).
Proof.
  intros Hr. exists (Z.sgn (round (v / r))).
  pose proof (float_compare_zero v r Hr) as Hc. split; [exact Hc|]. split.
  - exact (float_compare_zero_pos _ _ _ Hc).
  - exact (float_compare_zero_neg _ _ _ Hc).
Qed.

(** C1, as the code has it: with a source location and the quantities of
    both locations known, the fill-up quantity is zero when the forecast at
    the destination is above minus half the precision or the quantity
    available at the source is below half the precision; otherwise it is
    the smaller of the deficit less what was already replenished and the
    quantity available at the source.  The source availability caps the
    quantity, it is not subtracted from it. *)
Theorem fill_up_quantity_is_capped_deficit self product qties already src qd :
  Orderpoint.location_src_id self = Some src →
  lookup_quantities qties (Orderpoint.location_id self) product = Some qd →
  0 < Uom.rounding (Product.uom_id product) →
  (- half_precision product < Quantities.virtual_available qd →
   _get_qty_to_replenish_fill_up self product qties already = Ok 0)
  ∧ (∀ qs,
       lookup_quantities qties src product = Some qs →
       Quantities.virtual_available qd <= - half_precision product →
       (available_at_source qs < half_precision product →
        _get_qty_to_replenish_fill_up self product qties already = Ok 0)
       ∧ (half_precision product <= available_at_source qs →
          _get_qty_to_replenish_fill_up self product qties already
          = Ok (Qmin (Qabs (Quantities.virtual_available qd) - already)
                  (available_at_source qs))
          ∧ Qabs (Quantities.virtual_available qd) == deficit qd)).
Proof.
  intros Hsrc Hd Hr. unfold half_precision.
  destruct (float_compare_zero_sign (Quantities.virtual_available qd) _ Hr)
    as (c1 & Hc1 & _ & Hneg1).
  split.
  - intros Hva. eapply fill_up_dest_not_negative; [eassumption..|].
    destruct (Z_lt_le_dec c1 0) as [Hlt|Hle]; [|exact Hle].
    apply Hneg1 in Hlt. lra.
  - intros qs Hs Hva. apply Hneg1 in Hva as Hc1neg.
    destruct (float_compare_zero_sign (available_at_source qs) _ Hr)
      as (c2 & Hc2 & Hpos2 & _).
    split; intros Hav.
    + eapply fill_up_src_not_positive; [eassumption..|].
      destruct (Z_lt_le_dec 0 c2) as [Hlt|Hle]; [|exact Hle].
      apply Hpos2 in Hlt. lra.
    + split.
      * eapply fill_up_min; [eassumption..|]. by apply Hpos2.
      * unfold deficit. rewrite Q.max_r by lra. apply Qabs_neg. lra.
Qed.

(** C3, as the code has it: the fill-up quantity never exceeds the quantity
    available at the source when that quantity is not negative; when it is
    negative the result is zero (it never exceeds the larger of zero and
    the source availability). *)
Theorem fill_up_within_source_availability self product qties already src qd qs :
  Orderpoint.location_src_id self = Some src →
  lookup_quantities qties (Orderpoint.location_id self) product = Some qd →
  lookup_quantities qties src product = Some qs →
  0 < Uom.rounding (Product.uom_id product) →
  ∃ q, _get_qty_to_replenish_fill_up self product qties already = Ok q
       ∧ q <= Qmax 0 (available_at_source qs)
       ∧ (0 <= available_at_source qs → q <= available_at_source qs)
       ∧ (available_at_source qs < 0 → q = 0).
Proof.
  intros Hsrc Hd Hs Hr.
  destruct (float_compare_zero_sign (Quantities.virtual_available qd) _ Hr)
    as (c1 & Hc1 & _ & _).
  destruct (float_compare_zero_sign (available_at_source qs) _ Hr)
    as (c2 & Hc2 & Hpos2 & _).
  pose proof (Q.le_max_l 0 (available_at_source qs)) as Hmax0.
  pose proof (Q.le_max_r 0 (available_at_source qs)) as Hmax1.
  destruct (Z_lt_le_dec c1 0) as [Hc1neg|Hc1nn].
  - destruct (Z_lt_le_dec 0 c2) as [Hc2pos|Hc2np].
    + eexists. split; [eapply fill_up_min; eassumption|].
      pose proof (Q.le_min_r (Qabs (Quantities.virtual_available qd) - already)
                    (available_at_source qs)) as Hmin.
      apply Hpos2 in Hc2pos.
      repeat split; intros; lra.
    + exists 0. split; [eapply fill_up_src_not_positive; eassumption|].
      repeat split; intros; try reflexivity; lra.
  - exists 0. split; [eapply fill_up_dest_not_negative; eassumption|].
    repeat split; intros; try reflexivity; lra.
Qed.

(** C4: when the forecast at the destination is zero or more, the quantity
    to replenish is zero; a quantity other than zero is only ever computed
    under a negative forecast at the destination. *)
Theorem no_replenishment_without_negative_forecast self product qties already qd :
  lookup_quantities qties (Orderpoint.location_id self) product = Some qd →
  0 < Uom.rounding (Product.uom_id product) →
  (0 <= Quantities.virtual_available qd →
   _get_qty_to_replenish_fill_up self product qties already = Ok 0
   ∧ _get_qty_to_replenish self product qties already = Ok 0)
  ∧ (∀ q, _get_qty_to_replenish self product qties already = Ok q →
          ¬ q == 0 → Quantities.virtual_available qd < 0).
Proof.
  intros Hd Hr. split.
  - intros Hva.
    assert (Hfill : _get_qty_to_replenish_fill_up self product qties already = Ok 0).
    { destruct (Orderpoint.location_src_id self) as [src|] eqn:Hsrc.
      - destruct (float_compare_zero_sign (Quantities.virtual_available qd) _ Hr)
          as (c1 & Hc1 & _ & Hneg1).
        eapply fill_up_dest_not_negative; [eassumption..|].
        destruct (Z_lt_le_dec c1 0) as [Hlt|Hle]; [|exact Hle].
        apply Hneg1 in Hlt. lra.
      - unfold _get_qty_to_replenish_fill_up. rewrite Hsrc. reflexivity. }
    split; [exact Hfill|]. unfold _get_qty_to_replenish.
    destruct (String.eqb _ _); [exact Hfill | reflexivity].
  - intros q Hq Hq0.
    apply get_qty_to_replenish_inv in Hq
      as [->|(_ & src & qd' & qs & _ & Hd' & _ & Hva & _)].
    + exfalso. apply Hq0. reflexivity.
    + rewrite Hd in Hd'. injection Hd' as <-. exact Hva.
Qed.

End fill_up_claims.

(** ** The route constraint *)

Section route_constraint.

Lemma unique_by_keys {A : Type} (key : A → positive) (seen : gset positive)
    (l : list A) (k : positive) :
  k ∈ (key <$> unique_by key seen l) ↔ (k ∉ seen) ∧ k ∈ (key <$> l).
Proof.
  revert seen. induction l as [|x l IH]; intros seen; cbn [unique_by].
  - rewrite fmap_nil, elem_of_nil. tauto.
  - case_decide as Hseen.
    + rewrite IH, fmap_cons, elem_of_cons.
      split; [tauto|]. intros [Hk [->|Hin]]; [contradiction | tauto].
    + rewrite !fmap_cons, !elem_of_cons, IH.
      rewrite not_elem_of_union, not_elem_of_singleton.
      destruct (decide (k = key x)) as [->|Hne]; tauto.
Qed.

Lemma location_in_rules (location : Location.t) (rules : list Rule.t) :
  location_in location (rules_location_id rules) = true
  ↔ ∃ rule, rule ∈ rules
            ∧ Location.id (Rule.location_id rule) = Location.id location.
Proof.
  unfold location_in, rules_location_id.
  rewrite bool_decide_eq_true, unique_by_keys, <- list_fmap_compose.
  rewrite list_elem_of_fmap. split.
  - intros [_ (rule & Heq & Hin)]. exists rule. split; [exact Hin | by symmetry].
  - intros (rule & Hin & Heq). split; [apply not_elem_of_empty|].
    exists rule. split; [by symmetry | exact Hin].
Qed.

Lemma check_route_step (orderpoint : Orderpoint.t) (rest : list Orderpoint.t) :
  route_serves_location orderpoint →
  _check_location_id_route_id (orderpoint :: rest)
  = _check_location_id_route_id rest.
Proof.
  unfold route_serves_location. cbn [_check_location_id_route_id].
  destruct (Orderpoint.route_id orderpoint) as [route|]; [|reflexivity].
  intros Hrule. apply location_in_rules in Hrule. rewrite Hrule. reflexivity.
Qed.

Lemma check_route_raise (orderpoint : Orderpoint.t) (rest : list Orderpoint.t) :
  ¬ route_serves_location orderpoint →
  ∃ route,
    Orderpoint.route_id orderpoint = Some route
    ∧ _check_location_id_route_id (orderpoint :: rest)
      = Raise (ValidationError
                 (route_error_message (Route.display_name route)
                    (Location.display_name (Orderpoint.location_id orderpoint)))).
Proof.
  unfold route_serves_location. cbn [_check_location_id_route_id].
  destruct (Orderpoint.route_id orderpoint) as [route|]; [|intros []; exact I].
  intros Hrule. exists route. split; [reflexivity|].
  destruct (location_in _ _) eqn:Hin; [|reflexivity].
  exfalso. apply Hrule. by apply location_in_rules.
Qed.

Lemma route_serves_location_cases (orderpoint : Orderpoint.t) :
  route_serves_location orderpoint ∨ ¬ route_serves_location orderpoint.
Proof.
  unfold route_serves_location.
  destruct (Orderpoint.route_id orderpoint) as [route|]; [|by left].
  destruct (location_in (Orderpoint.location_id orderpoint)
              (rules_location_id (Route.rule_ids route))) eqn:Hin.
  - left. by apply location_in_rules.
  - right. intros Hrule. apply location_in_rules in Hrule. congruence.
Qed.

(** C9: the check passes exactly when every orderpoint has no route or has
    its location among the destinations of the rules of its route;
    otherwise it raises a validation error, naming the route and the
    location of the first orderpoint that fails. *)
Theorem check_location_id_route_id_spec (self : list Orderpoint.t) :
  (Forall route_serves_location self →
   _check_location_id_route_id self = Ok tt)
  ∧ (∀ orderpoint route,
       orderpoint ∈ self →
       Orderpoint.route_id orderpoint = Some route →
       (∀ rule, rule ∈ Route.rule_ids route →
                Location.id (Rule.location_id rule)
                ≠ Location.id (Orderpoint.location_id orderpoint)) →
       ∃ msg, _check_location_id_route_id self = Raise (ValidationError msg)).
Proof.
  split.
  - induction 1 as [|orderpoint rest Hok _ IH]; [reflexivity|].
    rewrite check_route_step by assumption. exact IH.
  - intros orderpoint route Hin Hroute Hnone.
    assert (Hbad : ¬ route_serves_location orderpoint).
    { unfold route_serves_location. rewrite Hroute.
      intros (rule & Hrule & Heq). exact (Hnone rule Hrule Heq). }
    clear Hroute Hnone. induction self as [|first rest IH]; [by inversion Hin|].
    destruct (route_serves_location_cases first) as [Hok|Hko].
    + rewrite check_route_step by assumption. apply IH.
      apply elem_of_cons in Hin as [->|Hin]; [contradiction | exact Hin].
    + destruct (check_route_raise first rest Hko) as (r & _ & ->). by eexists.
Qed.

End route_constraint.

(** ** The replenishment loop *)

Section loop_claims.
Context `{ORM}.
Implicit Types (env : Env) (self : list Orderpoint.t).
Implicit Types (moves_by_location : gmap positive (list Move.t)).

Lemma get_qties_to_replenish_iteration env self moves_by_location :
  _get_qties_to_replenish env self moves_by_location
  = (final ← foldlM
               (replenish_pair
                  (_compute_quantities_dict env (orderpoints_locations self)
                     (moves_products moves_by_location)))
               loop_init (iteration self moves_by_location);
     Ok (qties_to_replenish final)).
Proof.
  unfold _get_qties_to_replenish. cbv zeta.
  rewrite replenish_orderpoints_iteration. reflexivity.
Qed.

Lemma deficit_le_abs (qd : Quantities.t) :
  deficit qd <= Qabs (Quantities.virtual_available qd).
Proof.
  unfold deficit. apply Q.max_lub; [apply Qabs_nonneg|].
  rewrite <- Qabs_opp. apply Qle_Qabs.
Qed.

(** In exact arithmetic: the run of [_get_qties_to_replenish] is the loop
    body iterated over the (orderpoint, product) pairs; after any number [n]
    of iterations, every recorded quantity is strictly positive, what has
    been replenished for a location and a product lies between zero and the
    deficit there, and the quantity computed next, for whichever orderpoint
    and product, is not negative.  Rounding in binary64 arithmetic can break
    the last two, see [IEEE]. *)
Lemma replenished_quantities_are_clamped env self moves_by_location
    (n : nat) (st : loop_state) :
  let qties :=
    _compute_quantities_dict env (orderpoints_locations self)
      (moves_products moves_by_location) in
  foldlM (replenish_pair qties) loop_init
    (take n (iteration self moves_by_location)) = Ok st →
  _get_qties_to_replenish env self moves_by_location
  = (final ← foldlM (replenish_pair qties) loop_init
               (iteration self moves_by_location);
     Ok (qties_to_replenish final))
  ∧ (∀ orderpoint items product qty,
       (orderpoint, items) ∈ qties_to_replenish st →
       (product, qty) ∈ items → 0 < qty)
  ∧ (∀ (orderpoint : Orderpoint.t) (product : Product.t),
       let already :=
         replenished_get (qties_replenished st)
           (Location.id (Orderpoint.location_id orderpoint))
           (Product.id product) in
       0 <= already
       ∧ (∀ qd,
            lookup_quantities qties (Orderpoint.location_id orderpoint) product
            = Some qd →
            already <= deficit qd
            ∧ 0 <= Qabs (Quantities.virtual_available qd) - already)
       ∧ (∀ qty,
            _get_qty_to_replenish orderpoint product qties already = Ok qty →
            0 <= qty)).
Proof.
  intros qties Hst. apply iteration_prefix_inv in Hst as Hinv.
  split; [apply get_qties_to_replenish_iteration|]. split.
  - destruct Hinv as (_ & _ & Hrec).
    intros orderpoint items product qty Hentry Hitem.
    rewrite Forall_forall in Hrec. destruct (Hrec _ Hentry) as [_ Hitems].
    rewrite Forall_forall in Hitems. exact (Hitems _ Hitem).
  - intros orderpoint product already. split; [|split].
    + destruct Hinv as (Hnn & _ & _). apply Hnn.
    + intros qd Hd. destruct Hinv as (_ & Hdef & _).
      pose proof (Hdef _ _ _ Hd) as Hle. fold already in Hle.
      pose proof (deficit_le_abs qd). split; lra.
    + intros qty Hq.
      exact (proj1 (get_qty_to_replenish_bounds _ _ _ _ _ Hinv Hq)).
Qed.

(** Keys of the result dictionary come from the orderpoints iterated. *)
Lemma to_replenish_append_keys (S : Orderpoint.t → Prop) (d : to_replenish_dict)
    (orderpoint : Orderpoint.t) (item : Product.t * Q) :
  Forall (λ entry, S entry.1) d → S orderpoint →
  Forall (λ entry, S entry.1) (to_replenish_append d orderpoint item).
Proof.
  intros Hd HS. induction Hd as [|[o items] d Ho Hd IH];
    cbn [to_replenish_append].
  - by repeat constructor.
  - case_decide; constructor; assumption.
Qed.

Lemma replenish_pair_keys (S : Orderpoint.t → Prop) (qties : quantities_dict)
    (st st' : loop_state) (item : Orderpoint.t * Product.t) :
  S item.1 →
  Forall (λ entry, S entry.1) (qties_to_replenish st) →
  replenish_pair qties st item = Ok st' →
  Forall (λ entry, S entry.1) (qties_to_replenish st').
Proof.
  intros HS Hst. unfold replenish_pair, replenish_product.
  destruct (_get_qty_to_replenish _ _ _ _) as [q|];
    cbn [mbind result_bind]; [|discriminate].
  destruct (float_compare q 0 _) as [c|]; cbn [mbind result_bind];
    [|discriminate].
  destruct (c >? 0)%Z; intros [= <-]; [|exact Hst].
  cbn [qties_to_replenish]. by apply to_replenish_append_keys.
Qed.

Lemma iteration_orderpoints self moves_by_location
    (item : Orderpoint.t * Product.t) :
  item ∈ iteration self moves_by_location → item.1 ∈ self.
Proof.
  unfold iteration. rewrite list_elem_of_join.
  intros (pairs & Hitem & Hpairs).
  apply list_elem_of_fmap in Hpairs as (orderpoint & -> & Hin).
  destruct (moves_by_location !! _) as [moves|]; [|by inversion Hitem].
  apply list_elem_of_fmap in Hitem as (product & -> & _). exact Hin.
Qed.

Lemma get_qties_to_replenish_keys env self moves_by_location
    (res : to_replenish_dict) :
  _get_qties_to_replenish env self moves_by_location = Ok res →
  Forall (λ entry, entry.1 ∈ self ∧ can_replenish entry.1) res.
Proof.
  rewrite get_qties_to_replenish_iteration.
  destruct (foldlM _ loop_init _) as [final|] eqn:Hfinal;
    cbn [mbind result_bind]; [|discriminate].
  intros [= <-]. apply Forall_and. split.
  - revert Hfinal.
    apply (foldlM_invariant _
             (λ st, Forall (λ entry, entry.1 ∈ self) (qties_to_replenish st)));
      [|constructor].
    intros b item b' Hitem. apply (replenish_pair_keys (λ o, o ∈ self)).
    by apply iteration_orderpoints in Hitem.
  - assert (Hinv : loop_inv
              (_compute_quantities_dict env (orderpoints_locations self)
                 (moves_products moves_by_location)) final).
    { apply (iteration_prefix_inv _ self moves_by_location
               (length (iteration self moves_by_location))).
      rewrite firstn_all. exact Hfinal. }
    destruct Hinv as (_ & _ & Hrec).
    eapply Forall_impl; [exact Hrec|]. by intros entry [Hcan _].
Qed.

Lemma prepare_procurements_origin env self moves_by_location
    (res : to_replenish_dict) (procurements : list Procurement.t) :
  _get_qties_to_replenish env self moves_by_location = Ok res →
  __prepare_procurements env self moves_by_location = Ok procurements →
  Forall (λ procurement,
            ∃ entry, entry ∈ res
                     ∧ ProcurementValues.location_orderpoint_id
                         (Procurement.values procurement)
                       = Orderpoint.id entry.1)
    procurements.
Proof.
  intros Hres. unfold __prepare_procurements. rewrite Hres.
  cbn [mbind result_bind].
  apply foldlM_invariant; [|constructor].
  intros acc [orderpoint items] acc' Hentry Hacc.
  apply foldlM_invariant; [|exact Hacc].
  intros acc1 [product qty] acc2 _ Hacc1.
  destruct (getitem moves_by_location _) as [moves|];
    cbn [mbind result_bind]; [|discriminate].
  intros [= <-]. apply Forall_app. split; [exact Hacc1|].
  constructor; [|constructor]. by exists (orderpoint, items).
Qed.

(** C8: an orderpoint without a source location, or with a replenish
    method other than fill-up, gets the quantity zero for every product; it
    is never recorded in the result of [_get_qties_to_replenish], and no
    procurement is prepared for it: every procurement prepared carries the
    id of an orderpoint of the run that is fill-up and has a source
    location. *)
Theorem orderpoint_that_cannot_replenish_orders_nothing :
  (∀ (orderpoint : Orderpoint.t) (product : Product.t)
     (qties : quantities_dict) (already : Q),
     Orderpoint.location_src_id orderpoint = None
     ∨ Orderpoint.replenish_method orderpoint ≠ "fill_up"%string →
     _get_qty_to_replenish orderpoint product qties already = Ok 0)
  ∧ (∀ env self moves_by_location res,
       _get_qties_to_replenish env self moves_by_location = Ok res →
       ∀ entry, entry ∈ res → entry.1 ∈ self ∧ can_replenish entry.1)
  ∧ (∀ env self moves_by_location procurements,
       __prepare_procurements env self moves_by_location = Ok procurements →
       ∀ procurement, procurement ∈ procurements →
         ∃ orderpoint,
           orderpoint ∈ self ∧ can_replenish orderpoint
           ∧ ProcurementValues.location_orderpoint_id
               (Procurement.values procurement)
             = Orderpoint.id orderpoint).
Proof.
  split; [|split].
  - intros orderpoint product qties already Hcannot.
    unfold _get_qty_to_replenish.
    destruct (String.eqb_spec (Orderpoint.replenish_method orderpoint) "fill_up")
      as [Hm|Hm]; [|reflexivity].
    destruct Hcannot as [Hsrc|Hne]; [|contradiction].
    unfold _get_qty_to_replenish_fill_up. rewrite Hsrc. reflexivity.
  - intros env self moves_by_location res Hres entry Hentry.
    apply get_qties_to_replenish_keys in Hres.
    rewrite Forall_forall in Hres. exact (Hres _ Hentry).
  - intros env self moves_by_location procurements Hprocs procurement Hin.
    destruct (_get_qties_to_replenish env self moves_by_location)
      as [res|e] eqn:Hres.
    + pose proof (prepare_procurements_origin _ _ _ _ _ Hres Hprocs) as Horigin.
      rewrite Forall_forall in Horigin.
      destruct (Horigin _ Hin) as (entry & Hentry & Hid).
      apply get_qties_to_replenish_keys in Hres.
      rewrite Forall_forall in Hres. destruct (Hres _ Hentry) as [Hself Hcan].
      by exists entry.1.
    + unfold __prepare_procurements in Hprocs. rewrite Hres in Hprocs.
      discriminate.
Qed.

(** C10: with no product or no location, the automatic replenishment
    returns at once and leaves the database and the list of writes as they
    were; when no procurement was prepared, a replenishment run does the
    same: no procurement is run and no move is assigned. *)
Theorem replenishment_without_work_changes_nothing :
  (∀ products locations location_field (w : World),
     products = [] ∨ locations = [] →
     run_auto_replenishment products locations location_field w = Ok w)
  ∧ (∀ self products (w : World),
       _prepare_procurements (db w) self products = Ok [] →
       run_replenishment self products w = Ok w).
Proof.
  split.
  - intros products locations location_field w [-> | ->];
      unfold run_auto_replenishment; [by destruct locations | reflexivity].
  - intros self products w Hnone. unfold run_replenishment.
    rewrite Hnone. reflexivity.
Qed.

End loop_claims.

(** ** The claims on the small warehouse *)

Section on_the_small_warehouse.
Import Example.

Example example_quantities :
  lookup_quantities (qties_on_locations [from_a; from_b]) shelf shoes = Some on_shelf
  ∧ lookup_quantities (qties_on_locations [from_a; from_b]) reserve_a shoes
    = Some in_reserve_a
  ∧ lookup_quantities (qties_on_locations [from_a; from_b]) reserve_b shoes
    = Some in_reserve_b.
Proof. repeat split; evaluate. Qed.

Example example_run :
  @_get_qties_to_replenish orm tt [from_a; from_b] moves_by_location
  = Ok [(from_a, [(shoes, 3)]); (from_b, [(shoes, 7)])].
Proof. evaluate. Qed.

(** With work to do, a run performs the procurement run and then assigns
    the moves it finds. *)
Example example_replenishment_effects :
  effects <$> @run_replenishment orm [from_a; from_b] None world
  = (λ procurements,
       [ProcurementRun procurements; ActionAssign [2%positive]])
      <$> @_prepare_procurements orm tt [from_a; from_b] None.
Proof. vm_compute. reflexivity. Qed.

(** C1 refuted as stated: reserve A holds 3 and the shelf lacks 10; the
    code orders 3, the formula of the specification gives 10 - 0 - 3 = 7
    (and 0 if the target level is read as the forecast target, zero). *)
Lemma fill_up_is_not_target_minus_available :
  lookup_quantities (qties_on_locations [from_a]) shelf shoes = Some on_shelf
  ∧ lookup_quantities (qties_on_locations [from_a]) reserve_a shoes
    = Some in_reserve_a
  ∧ _get_qty_to_replenish_fill_up from_a shoes (qties_on_locations [from_a]) 0
    = Ok 3
  ∧ ¬ 3 == spec_fill_up_quantity (deficit on_shelf) 0
            (available_at_source in_reserve_a)
  ∧ ¬ 3 == spec_fill_up_quantity 0 0 (available_at_source in_reserve_a).
Proof. repeat split; evaluate. Qed.

(** C1 as amended, at the same input. *)
Lemma fill_up_quantity_is_capped_deficit_witness :
  _get_qty_to_replenish_fill_up from_a shoes (qties_on_locations [from_a]) 0
  = Ok (Qmin (Qabs (Quantities.virtual_available on_shelf) - 0)
          (available_at_source in_reserve_a))
  ∧ Qabs (Quantities.virtual_available on_shelf) == deficit on_shelf.
Proof.
  refine (proj2 (proj2 (fill_up_quantity_is_capped_deficit from_a shoes
                          (qties_on_locations [from_a]) 0 reserve_a on_shelf
                          _ _ _)
                   in_reserve_a _ _) _); evaluate.
Defined.

(** C3 refuted as stated: reserve C is short of 2, so what is available
    there is -2; the code answers 0, which exceeds -2. *)
Lemma fill_up_exceeds_negative_availability :
  lookup_quantities (qties_on_locations [from_c]) reserve_c shoes
  = Some in_reserve_c
  ∧ _get_qty_to_replenish_fill_up from_c shoes (qties_on_locations [from_c]) 0
    = Ok 0
  ∧ ¬ 0 <= available_at_source in_reserve_c.
Proof. repeat split; evaluate. Qed.

(** C3 as amended, at reserve B, which has 15 available. *)
Lemma fill_up_within_source_availability_witness :
  ∃ q, _get_qty_to_replenish_fill_up from_b shoes (qties_on_locations [from_b]) 0
       = Ok q
       ∧ q <= Qmax 0 (available_at_source in_reserve_b)
       ∧ (0 <= available_at_source in_reserve_b →
          q <= available_at_source in_reserve_b)
       ∧ (available_at_source in_reserve_b < 0 → q = 0).
Proof.
  refine (fill_up_within_source_availability from_b shoes
            (qties_on_locations [from_b]) 0 reserve_b on_shelf in_reserve_b
            _ _ _ _); evaluate.
Defined.

(** C4 at reserve A, whose forecast is 3. *)
Lemma no_replenishment_without_negative_forecast_witness :
  _get_qty_to_replenish_fill_up to_reserve shoes (qties_on_locations [to_reserve]) 0
  = Ok 0
  ∧ _get_qty_to_replenish to_reserve shoes (qties_on_locations [to_reserve]) 0
    = Ok 0.
Proof.
  refine (proj1 (no_replenishment_without_negative_forecast to_reserve shoes
                   (qties_on_locations [to_reserve]) 0 in_reserve_a _ _) _);
    evaluate.
Defined.

(** In exact arithmetic, after the two orderpoints of the shelf have been
    served: 3 from reserve A, then 7 from reserve B, together the deficit of
    10. *)
Example exact_replenished_quantities_on_the_shelf :
  foldlM (replenish_pair (qties_on_locations [from_a; from_b])) loop_init
    (take 2 (iteration [from_a; from_b] moves_by_location)) = Ok served
  ∧ (∀ orderpoint items product qty,
       (orderpoint, items) ∈ qties_to_replenish served →
       (product, qty) ∈ items → 0 < qty)
  ∧ replenished_get (qties_replenished served) 20 1 <= deficit on_shelf
  ∧ (∀ qty,
       _get_qty_to_replenish from_c shoes (qties_on_locations [from_a; from_b])
         (replenished_get (qties_replenished served) 20 1) = Ok qty →
       0 <= qty).
Proof.
  assert (Hrun : foldlM (replenish_pair (qties_on_locations [from_a; from_b]))
                   loop_init
                   (take 2 (iteration [from_a; from_b] moves_by_location))
                 = Ok served) by evaluate.
  split; [exact Hrun|].
  destruct (@replenished_quantities_are_clamped orm tt [from_a; from_b]
              moves_by_location 2%nat served Hrun) as (_ & Hrecorded & Hnext).
  split; [exact Hrecorded|].
  destruct (Hnext from_c shoes) as (_ & Hdeficit & Hqty).
  split; [|exact Hqty].
  refine (proj1 (Hdeficit on_shelf _)). evaluate.
Defined.

(** C8 on the orderpoint without route and on the one with another method. *)
Lemma orderpoint_that_cannot_replenish_orders_nothing_witness :
  _get_qty_to_replenish no_route shoes (qties_on_locations [no_route]) 0 = Ok 0
  ∧ _get_qty_to_replenish other_method shoes (qties_on_locations [other_method]) 0
    = Ok 0
  ∧ (∀ entry,
       entry ∈ [(from_b, [(shoes, 10)])] →
       entry.1 ∈ [no_route; other_method; from_b] ∧ can_replenish entry.1).
Proof.
  destruct (@orderpoint_that_cannot_replenish_orders_nothing orm)
    as (Hzero & Hrecorded & _).
  split; [|split].
  - apply Hzero. left. reflexivity.
  - apply Hzero. right. discriminate.
  - apply (Hrecorded tt [no_route; other_method; from_b] moves_by_location).
    evaluate.
Defined.

(** C9 on orderpoints that pass and on one whose route delivers elsewhere. *)
Lemma check_location_id_route_id_spec_witness :
  _check_location_id_route_id [from_a; no_route] = Ok tt
  ∧ ∃ msg, _check_location_id_route_id [from_a; bad_route]
           = Raise (ValidationError msg).
Proof.
  split.
  - apply (proj1 (check_location_id_route_id_spec [from_a; no_route])).
    repeat constructor. exists (Rule.Build_t 1 shelf (Some reserve_a) "make_to_stock").
    split; [by left | reflexivity].
  - apply (proj2 (check_location_id_route_id_spec [from_a; bad_route])
             bad_route route_elsewhere).
    + right. left.
    + reflexivity.
    + intros rule Hrule. apply list_elem_of_singleton in Hrule as ->. discriminate.
Defined.

Example example_route_error :
  _check_location_id_route_id [from_a; bad_route]
  = Raise (ValidationError
             "The selected route Reserve B to Reserve A must contain a rule where the Destination Location is WH/Stock/Shelf").
Proof. reflexivity. Qed.

(** C10 with no product, and with an orderpoint whose source has nothing. *)
Lemma replenishment_without_work_changes_nothing_witness :
  @run_auto_replenishment orm [] [shelf] None world = Ok world
  ∧ @run_auto_replenishment orm [shoes] [] None world = Ok world
  ∧ @run_replenishment orm [from_c] None world = Ok world.
Proof.
  destruct (@replenishment_without_work_changes_nothing orm) as [Hauto Hrun].
  split; [|split].
  - apply Hauto. left. reflexivity.
  - apply Hauto. right. reflexivity.
  - apply Hrun. evaluate.
Defined.

End on_the_small_warehouse.

(** ** The quantities dictionary *)

Section quantities_dict_facts.
Context `{ORM}.
Implicit Types (env : Env) (locations : list Location.t).
Implicit Types (products : list Product.t).

Lemma foldl_insert_lookup {V : Type} (items : list (positive * V))
    (d0 : gmap positive V) (k : positive) :
  ((k ∉ items.*1)
   ∧ foldl (λ (d : gmap positive V) item, <[item.1 := item.2]> d) d0 items !! k
     = d0 !! k)
  ∨ (∃ v, (k, v) ∈ items
          ∧ foldl (λ (d : gmap positive V) item, <[item.1 := item.2]> d) d0 items
            !! k = Some v).
Proof.
  revert d0. induction items as [|[k' v'] items IH]; intros d0; simpl.
  - left. split; [apply not_elem_of_nil | reflexivity].
  - destruct (IH (<[k' := v']> d0)) as [[Hnotin Heq]|(v & Hin & Heq)].
    + destruct (decide (k' = k)) as [->|Hk].
      * right. exists v'. split; [by left|].
        rewrite Heq. apply lookup_insert_eq.
      * left. split.
        -- rewrite not_elem_of_cons. split; [congruence | exact Hnotin].
        -- rewrite Heq. by apply lookup_insert_ne.
    + right. exists v. split; [by right | exact Heq].
Qed.

Lemma product_available_fold env (location : Location.t) products
    (d0 : gmap positive Quantities.t) (pid : positive) :
  ((pid ∉ (Product.id <$> products))
   ∧ foldl (λ (d : gmap positive Quantities.t) item, <[item.1 := item.2]> d)
       d0 (_product_available env location products) !! pid
     = d0 !! pid)
  ∨ (∃ product,
       product ∈ products ∧ Product.id product = pid
       ∧ foldl (λ (d : gmap positive Quantities.t) item, <[item.1 := item.2]> d)
           d0 (_product_available env location products) !! pid
         = Some (product_quantities env location product)).
Proof.
  destruct (foldl_insert_lookup (_product_available env location products) d0 pid)
    as [[Hnotin Heq]|(v & Hin & Heq)].
  - left. split; [|exact Heq].
    unfold _product_available in Hnotin.
    rewrite <- list_fmap_compose in Hnotin. exact Hnotin.
  - right. unfold _product_available in Hin.
    apply list_elem_of_fmap in Hin as (product & [= -> ->] & Hin).
    by exists product.
Qed.

Lemma default_empty_lookup (qties : quantities_dict) (loc pid : positive) :
  default ∅ (qties !! loc) !! pid = qties !! loc ≫= (.!! pid).
Proof. destruct (qties !! loc); [reflexivity | apply lookup_empty]. Qed.

Lemma compute_quantities_dict_lookup env locations products
    (loc pid : positive) :
  match _compute_quantities_dict env locations products !! loc ≫= (.!! pid) with
  | Some qd =>
      ∃ location product,
        location ∈ locations ∧ product ∈ products
        ∧ Location.id location = loc ∧ Product.id product = pid
        ∧ qd = product_quantities env location product
  | None =>
      loc ∉ (Location.id <$> locations) ∨ pid ∉ (Product.id <$> products)
  end.
Proof.
  unfold _compute_quantities_dict.
  induction locations as [|l locations IH] using rev_ind.
  - cbn. rewrite lookup_empty. cbn. left. apply not_elem_of_nil.
  - rewrite foldl_snoc.
    set (qties := foldl _ ∅ locations) in *.
    destruct (decide (Location.id l = loc)) as [<-|Hne].
    + rewrite lookup_insert_eq. cbn [mbind option_bind].
      destruct (product_available_fold env l products
                  (default ∅ (qties !! Location.id l)) pid)
        as [[Hnotin ->]|(product & Hin & Hid & ->)].
      * rewrite default_empty_lookup.
        destruct (qties !! Location.id l ≫= (.!! pid)) as [qd|].
        -- destruct IH as (location & product & _ & Hin & _ & Hid & _).
           exfalso. apply Hnotin. rewrite <- Hid. by apply list_elem_of_fmap_2.
        -- by right.
      * exists l, product. rewrite elem_of_app, list_elem_of_singleton. eauto 10.
    + rewrite lookup_insert_ne by assumption.
      destruct (qties !! loc ≫= (.!! pid)) as [qd|].
      * destruct IH as (location & product & Hl & Hrest).
        exists location, product. rewrite elem_of_app. eauto.
      * destruct IH as [Hloc|Hpid]; [left | by right].
        rewrite fmap_app, elem_of_app. cbn. rewrite list_elem_of_singleton.
        intros [Hin|Heq]; [by apply Hloc | congruence].
Qed.

Lemma compute_quantities_dict_is_Some env locations products
    (location : Location.t) (product : Product.t) :
  Location.id location ∈ (Location.id <$> locations) →
  Product.id product ∈ (Product.id <$> products) →
  is_Some (lookup_quantities (_compute_quantities_dict env locations products)
             location product).
Proof.
  intros Hl Hp. unfold lookup_quantities.
  pose proof (compute_quantities_dict_lookup env locations products
                (Location.id location) (Product.id product)) as Hentry.
  destruct (_ !! _ ≫= _) as [qd|]; [by eexists|].
  destruct Hentry; contradiction.
Qed.

(** X1: the dictionary [_compute_quantities_dict] builds has an entry
    exactly for the given locations and products (by id), and the entry
    holds the quantities the database reports for one of the given
    locations and products with these ids. *)
Theorem compute_quantities_dict_entries env locations products
    (loc pid : positive) :
  (is_Some (_compute_quantities_dict env locations products !! loc ≫= (.!! pid))
   ↔ loc ∈ (Location.id <$> locations) ∧ pid ∈ (Product.id <$> products))
  ∧ (∀ qd,
       _compute_quantities_dict env locations products !! loc ≫= (.!! pid)
       = Some qd →
       ∃ location product,
         location ∈ locations ∧ product ∈ products
         ∧ Location.id location = loc ∧ Product.id product = pid
         ∧ qd = product_quantities env location product).
Proof.
  pose proof (compute_quantities_dict_lookup env locations products loc pid)
    as Hentry.
  destruct (_ !! _ ≫= _) as [qd|].
  - destruct Hentry as (location & product & Hl & Hp & Hlid & Hpid & Hqd).
    split.
    + split; [|by eexists]. intros _. rewrite <- Hlid, <- Hpid.
      split; by apply list_elem_of_fmap_2.
    + intros qd' [= <-]. by exists location, product.
  - split; [|discriminate]. split.
    + by intros [? [=]].
    + intros [Hl Hp]. destruct Hentry; contradiction.
Qed.

End quantities_dict_facts.

(** ** The run never misses a key *)

Section run_facts.
Context `{ORM}.
Implicit Types (env : Env) (self : list Orderpoint.t).
Implicit Types (moves_by_location : gmap positive (list Move.t)).

Lemma unique_by_elem {A : Type} (key : A → positive) (seen : gset positive)
    (l : list A) (x : A) :
  x ∈ unique_by key seen l → x ∈ l.
Proof.
  revert seen. induction l as [|y l IH]; intros seen; cbn [unique_by];
    [done|].
  case_decide.
  - intros Hx. right. by eapply IH.
  - rewrite !elem_of_cons. intros [->|Hx]; [by left | right; by eapply IH].
Qed.

Lemma foldlM_total {A B : Type} (f : B → A → result B) (l : list A) (b : B) :
  (∀ b x, x ∈ l → ∃ b', f b x = Ok b') → ∃ b', foldlM f b l = Ok b'.
Proof.
  revert b. induction l as [|x l IH]; intros b Hstep; [by eexists|].
  cbn [foldlM]. destruct (Hstep b x) as [b1 ->]; [by left|].
  cbn [mbind result_bind]. apply IH. intros b2 y Hy. apply Hstep. by right.
Qed.

Lemma iteration_moves self moves_by_location (item : Orderpoint.t * Product.t) :
  item ∈ iteration self moves_by_location →
  item.1 ∈ self
  ∧ ∃ moves,
      moves_by_location !! Location.id (Orderpoint.location_id item.1) = Some moves
      ∧ item.2 ∈ moves_product_id moves.
Proof.
  unfold iteration. rewrite list_elem_of_join.
  intros (pairs & Hitem & Hpairs).
  apply list_elem_of_fmap in Hpairs as (orderpoint & -> & Hin).
  destruct (moves_by_location !! _) as [moves|] eqn:Hmoves; [|by inversion Hitem].
  apply list_elem_of_fmap in Hitem as (product & -> & Hproduct).
  split; [exact Hin|]. by exists moves.
Qed.

Lemma moves_product_id_move (moves : list Move.t) (product : Product.t) :
  product ∈ moves_product_id moves →
  ∃ move, move ∈ moves ∧ Move.product_id move = product.
Proof.
  unfold moves_product_id. intros Hin. apply unique_by_elem in Hin.
  apply list_elem_of_fmap in Hin as (move & -> & Hmove). by exists move.
Qed.

Lemma moves_products_ids moves_by_location (location : positive)
    (moves : list Move.t) (product : Product.t) :
  moves_by_location !! location = Some moves →
  product ∈ moves_product_id moves →
  Product.id product ∈ (Product.id <$> moves_products moves_by_location).
Proof.
  intros Hmoves Hproduct. unfold moves_products.
  apply unique_by_keys. split; [apply not_elem_of_empty|].
  apply list_elem_of_fmap_2, list_elem_of_join.
  exists (moves_product_id moves). split; [exact Hproduct|].
  apply list_elem_of_fmap_2, list_elem_of_fmap.
  exists (location, moves). split; [reflexivity|].
  by apply elem_of_map_to_list.
Qed.

Lemma orderpoints_locations_ids self (orderpoint : Orderpoint.t) :
  orderpoint ∈ self →
  Location.id (Orderpoint.location_id orderpoint)
  ∈ (Location.id <$> orderpoints_locations self)
  ∧ ∀ src, Orderpoint.location_src_id orderpoint = Some src →
           Location.id src ∈ (Location.id <$> orderpoints_locations self).
Proof.
  intros Hin. unfold orderpoints_locations. split; [|intros src Hsrc];
    apply unique_by_keys; (split; [apply not_elem_of_empty|]);
    apply list_elem_of_fmap_2, elem_of_app.
  - left. by apply list_elem_of_fmap_2.
  - right. apply list_elem_of_omap. by exists orderpoint.
Qed.

Lemma get_qty_to_replenish_total (orderpoint : Orderpoint.t) (product : Product.t)
    (qties : quantities_dict) (already : Q) :
  0 < Uom.rounding (Product.uom_id product) →
  is_Some (lookup_quantities qties (Orderpoint.location_id orderpoint) product) →
  (∀ src, Orderpoint.location_src_id orderpoint = Some src →
          is_Some (lookup_quantities qties src product)) →
  ∃ q, _get_qty_to_replenish orderpoint product qties already = Ok q.
Proof.
  intros Hr [qd Hd] Hsrc. unfold _get_qty_to_replenish.
  destruct (String.eqb _ _); [|by eexists].
  destruct (Orderpoint.location_src_id orderpoint) as [src|] eqn:Hs.
  - destruct (Hsrc src eq_refl) as [qs Hqs].
    destruct (float_compare_zero_sign (Quantities.virtual_available qd) _ Hr)
      as (c1 & Hc1 & _ & _).
    destruct (float_compare_zero_sign (available_at_source qs) _ Hr)
      as (c2 & Hc2 & _ & _).
    destruct (Z_lt_le_dec c1 0) as [Hc1neg|Hc1nn].
    + destruct (Z_lt_le_dec 0 c2) as [Hc2pos|Hc2np].
      * eexists. eapply fill_up_min; eassumption.
      * exists 0. eapply fill_up_src_not_positive; eassumption.
    + exists 0. eapply fill_up_dest_not_negative; eassumption.
  - exists 0. unfold _get_qty_to_replenish_fill_up. rewrite Hs. reflexivity.
Qed.

Lemma replenish_pair_total env self moves_by_location (st : loop_state)
    (item : Orderpoint.t * Product.t) :
  positive_roundings moves_by_location →
  item ∈ iteration self moves_by_location →
  ∃ st',
    replenish_pair
      (_compute_quantities_dict env (orderpoints_locations self)
         (moves_products moves_by_location)) st item = Ok st'.
Proof.
  intros Hpos Hitem. destruct item as [orderpoint product].
  apply iteration_moves in Hitem as (Hin & moves & Hmoves & Hproduct).
  cbn [fst snd] in *.
  destruct (moves_product_id_move _ _ Hproduct) as (move & Hmove & <-).
  pose proof (Hpos _ _ _ Hmoves Hmove) as Hr.
  pose proof (moves_products_ids _ _ _ _ Hmoves Hproduct) as Hpid.
  destruct (orderpoints_locations_ids self orderpoint Hin) as [Hdest Hsrc].
  unfold replenish_pair, replenish_product. cbn [fst snd].
  destruct (get_qty_to_replenish_total orderpoint (Move.product_id move)
              (_compute_quantities_dict env (orderpoints_locations self)
                 (moves_products moves_by_location))
              (replenished_get (qties_replenished st)
                 (Location.id (Orderpoint.location_id orderpoint))
                 (Product.id (Move.product_id move))) Hr) as [q ->].
  - by apply compute_quantities_dict_is_Some.
  - intros src Hs. apply compute_quantities_dict_is_Some; [by apply Hsrc | done].
  - cbn [mbind result_bind]. rewrite (float_compare_zero q _ Hr).
    cbn [mbind result_bind]. destruct (_ >? 0)%Z; by eexists.
Qed.

(** X2: when the products of the waiting moves all have a positive rounding
    precision, [_get_qties_to_replenish] returns a result: the quantities
    dictionary it builds holds every location and product the loop reads, so
    no subscript raises. *)
Theorem get_qties_to_replenish_returns env self moves_by_location :
  positive_roundings moves_by_location →
  ∃ res, _get_qties_to_replenish env self moves_by_location = Ok res.
Proof.
  intros Hpos. rewrite get_qties_to_replenish_iteration.
  destruct (foldlM_total
              (replenish_pair
                 (_compute_quantities_dict env (orderpoints_locations self)
                    (moves_products moves_by_location)))
              (iteration self moves_by_location) loop_init) as [final ->].
  - intros st item Hitem. by eapply replenish_pair_total.
  - by eexists.
Qed.

Lemma foldlM_map_app {A B : Type} (f : list B → A → result (list B))
    (g : A → B) (l : list A) (acc : list B) :
  (∀ acc x, x ∈ l → f acc x = Ok (acc ++ [g x])) →
  foldlM f acc l = Ok (acc ++ (g <$> l)).
Proof.
  revert acc. induction l as [|x l IH]; intros acc Hstep; cbn [foldlM fmap list_fmap].
  - by rewrite app_nil_r.
  - rewrite Hstep by (by left). cbn [mbind result_bind].
    rewrite IH by (intros; apply Hstep; by right).
    by rewrite <- app_assoc.
Qed.

Lemma foldlM_bind_app {A B : Type} (f : list B → A → result (list B))
    (g : A → list B) (l : list A) (acc : list B) :
  (∀ acc x, x ∈ l → f acc x = Ok (acc ++ g x)) →
  foldlM f acc l = Ok (acc ++ (l ≫= g)).
Proof.
  revert acc. induction l as [|x l IH]; intros acc Hstep; cbn [foldlM].
  - by rewrite app_nil_r.
  - rewrite Hstep by (by left). cbn [mbind result_bind].
    rewrite IH by (intros; apply Hstep; by right).
    cbn. by rewrite <- app_assoc.
Qed.

Lemma get_qties_to_replenish_locations env self moves_by_location
    (res : to_replenish_dict) :
  _get_qties_to_replenish env self moves_by_location = Ok res →
  Forall (λ entry,
            is_Some (moves_by_location
                       !! Location.id (Orderpoint.location_id entry.1))) res.
Proof.
  rewrite get_qties_to_replenish_iteration.
  destruct (foldlM _ loop_init _) as [final|] eqn:Hfinal;
    cbn [mbind result_bind]; [|discriminate].
  intros [= <-]. revert Hfinal.
  apply (foldlM_invariant _
           (λ st, Forall (λ entry,
                            is_Some (moves_by_location
                                       !! Location.id (Orderpoint.location_id entry.1)))
                    (qties_to_replenish st))); [|constructor].
  intros st item st' Hitem.
  apply (replenish_pair_keys
           (λ o, is_Some (moves_by_location
                            !! Location.id (Orderpoint.location_id o)))).
  apply iteration_moves in Hitem as (_ & moves & -> & _). by eexists.
Qed.

Lemma prepare_procurements_entries env self moves_by_location
    (res : to_replenish_dict) :
  _get_qties_to_replenish env self moves_by_location = Ok res →
  __prepare_procurements env self moves_by_location
  = Ok (res ≫= entry_procurements env moves_by_location).
Proof.
  intros Hres. pose proof (get_qties_to_replenish_locations _ _ _ _ Hres) as Hloc.
  unfold __prepare_procurements. rewrite Hres. cbn [mbind result_bind].
  apply (foldlM_bind_app _ (entry_procurements env moves_by_location) res []).
  intros acc [orderpoint items] Hentry.
  rewrite Forall_forall in Hloc. destruct (Hloc _ Hentry) as [moves Hmoves].
  cbn [fst snd] in Hmoves.
  unfold entry_procurements. cbn [fst snd]. rewrite Hmoves. cbn [default].
  apply (foldlM_map_app _
           (λ item : Product.t * Q,
              _prepare_procurement env orderpoint item.1 item.2
                (replenishment_date moves item.1)
                (_prepare_procurement_values env orderpoint))).
  intros acc' [product qty] _. unfold getitem. rewrite Hmoves. reflexivity.
Qed.

(** X3: [__prepare_procurements] never misses the moves of an orderpoint it
    prepares for: every orderpoint of the result has waiting moves at its
    location, and the procurements are, in order, one per recorded
    (orderpoint, product, quantity), each dated by the moves of that
    location. *)
Theorem prepare_procurements_one_per_quantity env self moves_by_location
    (res : to_replenish_dict) :
  _get_qties_to_replenish env self moves_by_location = Ok res →
  (∀ entry, entry ∈ res →
            is_Some (moves_by_location
                       !! Location.id (Orderpoint.location_id entry.1)))
  ∧ __prepare_procurements env self moves_by_location
    = Ok (res ≫= entry_procurements env moves_by_location)
  ∧ (∀ procurements,
       __prepare_procurements env self moves_by_location = Ok procurements →
       length procurements = sum_list (length ∘ snd <$> res)).
Proof.
  intros Hres. split; [|split].
  - apply Forall_forall. by eapply get_qties_to_replenish_locations.
  - by apply prepare_procurements_entries.
  - intros procurements. rewrite (prepare_procurements_entries _ _ _ _ Hres).
    intros [= <-]. clear Hres.
    induction res as [|[orderpoint items] res IH]; [reflexivity|].
    cbn. rewrite length_app, IH. unfold entry_procurements.
    by rewrite length_fmap.
Qed.

End run_facts.

(** ** What the result dictionary holds *)

Section result_facts.
Context `{ORM}.
Implicit Types (env : Env) (self : list Orderpoint.t).
Implicit Types (moves_by_location : gmap positive (list Move.t)).
Implicit Types (qties : quantities_dict) (st : loop_state).

(** One iteration either leaves the state alone or records a positive
    quantity. *)
Lemma replenish_pair_cases qties st (item : Orderpoint.t * Product.t) st' :
  replenish_pair qties st item = Ok st' →
  st' = st
  ∨ ∃ q,
      0 < q
      ∧ _get_qty_to_replenish item.1 item.2 qties
          (replenished_get (qties_replenished st)
             (Location.id (Orderpoint.location_id item.1)) (Product.id item.2))
        = Ok q
      ∧ st' = {| qties_replenished :=
                   replenished_add (qties_replenished st)
                     (Location.id (Orderpoint.location_id item.1))
                     (Product.id item.2) q;
                 qties_to_replenish :=
                   to_replenish_append (qties_to_replenish st) item.1 (item.2, q) |}.
Proof.
  unfold replenish_pair, replenish_product.
  destruct (_get_qty_to_replenish _ _ _ _) as [q|] eqn:Hq;
    cbn [mbind result_bind]; [|discriminate].
  destruct (float_compare q 0 _) as [c|] eqn:Hc; cbn [mbind result_bind];
    [|discriminate].
  destruct (Z.gtb_spec c 0) as [Hpos|_]; intros [= <-]; [|by left].
  right. exists q. split; [|by split].
  pose proof (float_compare_Ok_precision _ _ _ _ Hc) as Hr.
  apply float_compare_zero_pos in Hc. apply Hc in Hpos. lra.
Qed.

Lemma final_state env self moves_by_location (res : to_replenish_dict) :
  _get_qties_to_replenish env self moves_by_location = Ok res →
  ∃ final,
    foldlM
      (replenish_pair
         (_compute_quantities_dict env (orderpoints_locations self)
            (moves_products moves_by_location)))
      loop_init (iteration self moves_by_location) = Ok final
    ∧ res = qties_to_replenish final.
Proof.
  rewrite get_qties_to_replenish_iteration.
  destruct (foldlM _ loop_init _) as [final|]; cbn [mbind result_bind];
    [|discriminate].
  intros [= <-]. by exists final.
Qed.

Lemma to_replenish_append_ids (d : to_replenish_dict) (orderpoint : Orderpoint.t)
    (item : Product.t * Q) :
  (λ entry, Orderpoint.id entry.1) <$> to_replenish_append d orderpoint item
  = if decide (Orderpoint.id orderpoint ∈ ((λ entry, Orderpoint.id entry.1) <$> d))
    then (λ entry, Orderpoint.id entry.1) <$> d
    else ((λ entry, Orderpoint.id entry.1) <$> d) ++ [Orderpoint.id orderpoint].
Proof.
  induction d as [|[o items] d IH]; cbn [to_replenish_append fmap list_fmap].
  - rewrite decide_False by apply not_elem_of_nil. reflexivity.
  - destruct (decide (Orderpoint.id o = Orderpoint.id orderpoint)) as [Heq|Hne].
    + cbn [fmap list_fmap fst]. rewrite decide_True; [reflexivity|].
      rewrite Heq. by left.
    + cbn [fmap list_fmap fst]. change (list_fmap _ _ ?f ?l) with (f <$> l).
      rewrite IH. destruct (decide (_ ∈ _ <$> d)) as [Hin|Hnotin].
      * rewrite decide_True; [reflexivity | by right].
      * rewrite decide_False; [reflexivity|].
        rewrite not_elem_of_cons. split; [congruence | exact Hnotin].
Qed.

Lemma to_replenish_append_nonempty (d : to_replenish_dict)
    (orderpoint : Orderpoint.t) (item : Product.t * Q) :
  Forall (λ entry, entry.2 ≠ []) d →
  Forall (λ entry, entry.2 ≠ []) (to_replenish_append d orderpoint item).
Proof.
  induction 1 as [|[o items] d Ho Hd IH]; cbn [to_replenish_append].
  - by repeat constructor.
  - case_decide; constructor; try assumption.
    cbn. intros Happ. by apply app_eq_nil in Happ as [_ [=]].
Qed.

(** X4: the result of [_get_qties_to_replenish] is a dictionary: no two of
    its entries are for the same orderpoint id, and no entry is empty. *)
Theorem get_qties_to_replenish_is_dictionary env self moves_by_location
    (res : to_replenish_dict) :
  _get_qties_to_replenish env self moves_by_location = Ok res →
  NoDup ((λ entry, Orderpoint.id entry.1) <$> res)
  ∧ Forall (λ entry, entry.2 ≠ []) res.
Proof.
  intros Hres. apply final_state in Hres as (final & Hfinal & ->).
  revert Hfinal.
  apply (foldlM_invariant _
           (λ st, NoDup ((λ entry, Orderpoint.id entry.1) <$> qties_to_replenish st)
                  ∧ Forall (λ entry, entry.2 ≠ []) (qties_to_replenish st))).
  - intros st item st' _ [Hnodup Hne] Hstep.
    apply replenish_pair_cases in Hstep as [->|(q & _ & _ & ->)]; [by split|].
    cbn [qties_to_replenish]. split.
    + rewrite to_replenish_append_ids. case_decide; [exact Hnodup|].
      apply NoDup_app. split; [exact Hnodup|]. split.
      * intros x Hx Hx'. apply list_elem_of_singleton in Hx' as ->. contradiction.
      * apply NoDup_singleton.
    + by apply to_replenish_append_nonempty.
  - split; constructor.
Qed.

Lemma to_replenish_append_Forall_rel (S : Orderpoint.t → Prop)
    (R : Orderpoint.t → Product.t * Q → Prop) (d : to_replenish_dict)
    (orderpoint : Orderpoint.t) (item : Product.t * Q) :
  Forall (λ entry, S entry.1 ∧ Forall (R entry.1) entry.2) d →
  S orderpoint →
  (∀ o, S o → Orderpoint.id o = Orderpoint.id orderpoint → R o item) →
  Forall (λ entry, S entry.1 ∧ Forall (R entry.1) entry.2)
    (to_replenish_append d orderpoint item).
Proof.
  intros Hd HS HR. induction Hd as [|[o items] d [Ho Hitems] Hd IH];
    cbn [to_replenish_append].
  - repeat constructor; [exact HS | by apply HR].
  - case_decide as Hid.
    + constructor; [|exact Hd]. split; [exact Ho|].
      apply Forall_app. split; [exact Hitems|].
      constructor; [by apply HR | constructor].
    + constructor; [by split | exact IH].
Qed.

(** X5: in a recordset with one record per id, every quantity recorded for
    an orderpoint and a product is for a product that has a waiting move at
    the orderpoint's location, and it can be reserved at the orderpoint's
    source location: it does not exceed what is available there. *)
Theorem recorded_quantities_are_reservable env self moves_by_location
    (res : to_replenish_dict) :
  one_record_per_id self →
  _get_qties_to_replenish env self moves_by_location = Ok res →
  ∀ orderpoint items product qty,
    (orderpoint, items) ∈ res → (product, qty) ∈ items →
    (∃ moves,
       moves_by_location !! Location.id (Orderpoint.location_id orderpoint)
       = Some moves
       ∧ product ∈ moves_product_id moves)
    ∧ ∃ src qs,
        Orderpoint.location_src_id orderpoint = Some src
        ∧ lookup_quantities
            (_compute_quantities_dict env (orderpoints_locations self)
               (moves_products moves_by_location)) src product = Some qs
        ∧ qty <= available_at_source qs.
Proof.
  intros Hone Hres. apply final_state in Hres as (final & Hfinal & ->).
  set (qties := _compute_quantities_dict env (orderpoints_locations self)
                  (moves_products moves_by_location)) in *.
  set (R := λ (o : Orderpoint.t) (item : Product.t * Q),
              (∃ moves,
                 moves_by_location !! Location.id (Orderpoint.location_id o)
                 = Some moves
                 ∧ item.1 ∈ moves_product_id moves)
              ∧ ∃ src qs,
                  Orderpoint.location_src_id o = Some src
                  ∧ lookup_quantities qties src item.1 = Some qs
                  ∧ item.2 <= available_at_source qs).
  assert (Hinv : Forall (λ entry, entry.1 ∈ self ∧ Forall (R entry.1) entry.2)
                   (qties_to_replenish final)).
  { revert Hfinal.
    apply (foldlM_invariant _
             (λ st, Forall (λ entry, entry.1 ∈ self ∧ Forall (R entry.1) entry.2)
                      (qties_to_replenish st))); [|constructor].
    intros st [orderpoint product] st' Hitem Hst Hstep.
    apply replenish_pair_cases in Hstep as [->|(q & Hq0 & Hq & ->)];
      [exact Hst|].
    cbn [fst snd qties_to_replenish] in *.
    apply iteration_moves in Hitem as (Hin & moves & Hmoves & Hproduct).
    cbn [fst snd] in *.
    apply (to_replenish_append_Forall_rel (λ o, o ∈ self) R);
      [exact Hst | exact Hin |].
    intros o Ho Hid. rewrite (Hone o orderpoint Ho Hin Hid).
    split; [by exists moves|]. cbn [fst snd].
    apply get_qty_to_replenish_inv in Hq
      as [->|(_ & src & qd & qs & Hsrc & _ & Hs & _ & _ & ->)]; [lra|].
    exists src, qs. split; [exact Hsrc|]. split; [exact Hs|].
    apply Q.le_min_r. }
  intros orderpoint items product qty Hentry Hitem.
  rewrite Forall_forall in Hinv. destruct (Hinv _ Hentry) as [_ Hitems].
  rewrite Forall_forall in Hitems. exact (Hitems _ Hitem).
Qed.

(** X7: once what has been replenished for a location and a product has
    reached the deficit there, the loop body records nothing more for any
    orderpoint of that location: the state is left as it is. *)
Theorem nothing_recorded_once_deficit_is_covered qties
    (orderpoint : Orderpoint.t) (product : Product.t) st st' (qd : Quantities.t) :
  lookup_quantities qties (Orderpoint.location_id orderpoint) product = Some qd →
  replenished_get (qties_replenished st)
    (Location.id (Orderpoint.location_id orderpoint)) (Product.id product)
  == deficit qd →
  replenish_product qties orderpoint st product = Ok st' →
  st' = st.
Proof.
  intros Hd Hcovered Hstep.
  apply (replenish_pair_cases qties st (orderpoint, product)) in Hstep
    as [->|(q & Hq0 & Hq & _)]; [reflexivity|].
  cbn [fst snd] in Hq. exfalso.
  apply get_qty_to_replenish_inv in Hq
    as [->|(_ & src & qd' & qs & _ & Hd' & _ & Hva & _ & ->)]; [lra|].
  rewrite Hd in Hd'. injection Hd' as <-.
  set (a := replenished_get _ _ _) in *.
  pose proof (Q.le_min_l (Qabs (Quantities.virtual_available qd) - a)
                (available_at_source qs)) as Hmin.
  pose proof (Qabs_neg (Quantities.virtual_available qd)) as Habs.
  assert (Hdeficit : deficit qd == - Quantities.virtual_available qd)
    by (unfold deficit; apply Q.max_r; lra).
  lra.
Qed.

End result_facts.

(** ** More on the route constraint *)

Section route_facts.

(** X8: when the check of location and route passes, every orderpoint is
    served by its route; when it fails, the error is the one of the first
    orderpoint, in order, that is not served, and names its route and its
    location. *)
Theorem check_location_id_route_id_first_failure :
  (∀ self, _check_location_id_route_id self = Ok tt →
           Forall route_serves_location self)
  ∧ (∀ passing (failing : Orderpoint.t) rest route,
       Forall route_serves_location passing →
       Orderpoint.route_id failing = Some route →
       ¬ route_serves_location failing →
       _check_location_id_route_id (passing ++ failing :: rest)
       = Raise (ValidationError
                  (route_error_message (Route.display_name route)
                     (Location.display_name (Orderpoint.location_id failing))))).
Proof.
  split.
  - induction self as [|orderpoint rest IH]; [constructor|].
    destruct (route_serves_location_cases orderpoint) as [Hok|Hko].
    + rewrite check_route_step by exact Hok. intros Hrest.
      constructor; [exact Hok | by apply IH].
    + destruct (check_route_raise orderpoint rest Hko) as (route & _ & ->).
      discriminate.
  - intros passing failing rest route Hpassing Hroute Hko.
    induction Hpassing as [|orderpoint passing Hok _ IH]; cbn [app].
    + destruct (check_route_raise failing rest Hko) as (route' & Hroute' & ->).
      rewrite Hroute in Hroute'. by injection Hroute' as <-.
    + rewrite check_route_step by exact Hok. exact IH.
Qed.

End route_facts.

(** ** Parent locations *)

Section parent_facts.

Lemma string_prefix_refl (s : string) : String.prefix s s = true.
Proof.
  induction s as [|a s IH]; cbn; [reflexivity|].
  destruct (Ascii.ascii_dec a a); [exact IH | contradiction].
Qed.

Lemma string_prefix_trans (s1 s2 s3 : string) :
  String.prefix s1 s2 = true → String.prefix s2 s3 = true →
  String.prefix s1 s3 = true.
Proof.
  revert s2 s3. induction s1 as [|a s1 IH]; intros s2 s3; [by destruct s3|].
  destruct s2 as [|b s2]; cbn; [discriminate|].
  destruct (Ascii.ascii_dec a b) as [<-|]; [|discriminate].
  destruct s3 as [|c s3]; cbn; [discriminate|].
  destruct (Ascii.ascii_dec a c); [apply IH | discriminate].
Qed.

Lemma is_parent_loop_true (parents : list Location.t) (location : Location.t) :
  is_parent_loop parents location = Some true
  ↔ ∃ parent, parent ∈ parents
              ∧ String.prefix (Location.parent_path parent)
                  (Location.parent_path location) = true.
Proof.
  induction parents as [|first parents IH]; cbn [is_parent_loop].
  - split; [discriminate | by intros (parent & Hin & _); inversion Hin].
  - destruct (String.prefix (Location.parent_path first) _) eqn:Hfirst.
    + split; [|reflexivity]. intros _. exists first. split; [by left | exact Hfirst].
    + rewrite IH. split.
      * intros (parent & Hin & Hp). exists parent. split; [by right | exact Hp].
      * intros (parent & Hin & Hp). apply elem_of_cons in Hin as [->|Hin];
          [congruence | by exists parent].
Qed.

Lemma is_parent_loop_never_false (parents : list Location.t)
    (location : Location.t) :
  is_parent_loop parents location ≠ Some false.
Proof.
  induction parents as [|first parents IH]; cbn [is_parent_loop];
    [discriminate|].
  destruct (String.prefix _ _); [discriminate | exact IH].
Qed.

(** X9: [_is_location_parent_of] answers true exactly when the path of one
    of the orderpoints' locations (of the given field) starts the path of
    the location, and otherwise falls through without a value, never false.
    Every location of the orderpoints is covered, and so is every location
    below a covered one. *)
Theorem is_location_parent_of_spec (self : list Orderpoint.t)
    (location : Location.t) (location_field : location_field_name) :
  (_is_location_parent_of self location location_field = Some true
   ↔ ∃ parent,
       parent ∈ orderpoints_field self location_field
       ∧ String.prefix (Location.parent_path parent)
           (Location.parent_path location) = true)
  ∧ _is_location_parent_of self location location_field ≠ Some false
  ∧ (location ∈ orderpoints_field self location_field →
     _is_location_parent_of self location location_field = Some true)
  ∧ (∀ child,
       _is_location_parent_of self location location_field = Some true →
       String.prefix (Location.parent_path location)
         (Location.parent_path child) = true →
       _is_location_parent_of self child location_field = Some true).
Proof.
  unfold _is_location_parent_of. split; [apply is_parent_loop_true|].
  split; [apply is_parent_loop_never_false|]. split.
  - intros Hin. apply is_parent_loop_true. exists location.
    split; [exact Hin | apply string_prefix_refl].
  - intros child Hparent Hchild. apply is_parent_loop_true in Hparent
      as (parent & Hin & Hp).
    apply is_parent_loop_true. exists parent. split; [exact Hin|].
    by eapply string_prefix_trans.
Qed.

End parent_facts.

(** ** Assigning the replenishment moves *)

Section assign_facts.
Context `{ORM}.

Lemma split_every_fuel_join {A : Type} (n fuel : nat) (l : list A) :
  (0 < n)%nat → (length l ≤ fuel)%nat →
  mjoin (split_every_fuel fuel n l) = l.
Proof.
  intros Hn. revert l. induction fuel as [|fuel IH]; intros l Hlen.
  - destruct l; [reflexivity | cbn in Hlen; lia].
  - cbn [split_every_fuel]. destruct (take n l) as [|x piece] eqn:Htake.
    + destruct l; [reflexivity|]. destruct n; [lia | discriminate].
    + cbn [mjoin list_join]. rewrite IH.
      * rewrite <- Htake. apply take_drop.
      * rewrite length_drop. destruct l; cbn in *; lia.
Qed.

Lemma split_every_fuel_pieces {A : Type} (n fuel : nat) (l : list A) :
  Forall (λ piece, piece ≠ [] ∧ (length piece ≤ n)%nat)
    (split_every_fuel fuel n l).
Proof.
  revert l. induction fuel as [|fuel IH]; intros l; [constructor|].
  cbn [split_every_fuel]. destruct (take n l) as [|x piece] eqn:Htake;
    [constructor|].
  constructor; [|apply IH]. split; [discriminate|].
  rewrite <- Htake, length_take. lia.
Qed.

Lemma assign_chunks (chunks : list (list positive)) (w : World) :
  effects
    (foldl (λ (w : World) moves_chunk,
              {| db := action_assign moves_chunk (db w);
                 effects := effects w ++ [ActionAssign moves_chunk] |})
       w chunks)
  = effects w ++ (ActionAssign <$> chunks)
  ∧ db
      (foldl (λ (w : World) moves_chunk,
                {| db := action_assign moves_chunk (db w);
                   effects := effects w ++ [ActionAssign moves_chunk] |})
         w chunks)
    = foldl (λ env moves_chunk, action_assign moves_chunk env) (db w) chunks.
Proof.
  revert w. induction chunks as [|chunk chunks IH]; intros w; cbn [foldl].
  - split; [by rewrite app_nil_r | reflexivity].
  - destruct (IH {| db := action_assign chunk (db w);
                    effects := effects w ++ [ActionAssign chunk] |})
      as [-> ->].
    cbn [db effects fmap list_fmap]. split; [|reflexivity].
    by rewrite <- app_assoc.
Qed.

(** X10: [_assign_replenishment_moves] searches the moves once, then assigns
    every move found exactly once, in the order of the search, in chunks
    that are not empty and hold at most 100 moves; nothing else is written. *)
Theorem assign_replenishment_moves_in_chunks (self : list Orderpoint.t)
    (w : World) :
  ∃ chunks,
    mjoin chunks
    = Move.id <$> search_moves (db w)
                    (_prepare_to_assign_replenishment_move_domain self)
                    "priority desc, date asc, id asc"
    ∧ Forall (λ chunk, chunk ≠ [] ∧ (length chunk ≤ 100)%nat) chunks
    ∧ effects (_assign_replenishment_moves self w)
      = effects w ++ (ActionAssign <$> chunks)
    ∧ db (_assign_replenishment_moves self w)
      = foldl (λ env chunk, action_assign chunk env) (db w) chunks.
Proof.
  unfold _assign_replenishment_moves. cbv zeta.
  set (ids := Move.id <$> search_moves _ _ _).
  exists (split_every 100 ids). split; [|split].
  - apply split_every_fuel_join; lia.
  - apply split_every_fuel_pieces.
  - apply assign_chunks.
Qed.

(** X11: a replenishment run that returns has prepared its procurements
    first; with none it leaves the state as it is, otherwise it performs
    exactly one procurement run, with all of them, and only then assigns the
    moves it finds in the database as the procurement run left it.  When
    preparing the procurements raises, the run raises the same error. *)
Theorem run_replenishment_effects (self : list Orderpoint.t)
    (products : option (list Product.t)) (w : World) :
  (∀ w', run_replenishment self products w = Ok w' →
     ∃ procurements,
       _prepare_procurements (db w) self products = Ok procurements
       ∧ ((procurements = [] ∧ w' = w)
          ∨ (procurements ≠ []
             ∧ ∃ chunks,
                 effects w'
                 = effects w ++ ProcurementRun procurements
                                  :: (ActionAssign <$> chunks)
                 ∧ mjoin chunks
                   = Move.id <$> search_moves
                                   (procurement_run procurements (db w))
                                   (_prepare_to_assign_replenishment_move_domain self)
                                   "priority desc, date asc, id asc")))
  ∧ (∀ e, _prepare_procurements (db w) self products = Raise e →
          run_replenishment self products w = Raise e).
Proof.
  unfold run_replenishment. split.
  - intros w'. destruct (_prepare_procurements (db w) self products)
      as [procurements|e]; cbn [mbind result_bind]; [|discriminate].
    intros Hrun. exists procurements. split; [reflexivity|].
    destruct procurements as [|procurement procurements].
    + left. by injection Hrun as <-.
    + right. split; [discriminate|]. injection Hrun as <-.
      unfold _after_replenishment, _assign_replenishment_moves. cbv zeta.
      cbn [db effects].
      set (ids := Move.id <$> search_moves _ _ _).
      exists (split_every 100 ids). split.
      * rewrite (proj1 (assign_chunks _ _)). cbn [effects].
        by rewrite <- app_assoc.
      * apply split_every_fuel_join; lia.
  - intros e ->. reflexivity.
Qed.

(** X12: every procurement [__prepare_procurements] prepares belongs to an
    orderpoint of the run that has waiting moves at its location.  It is for
    a strictly positive quantity, in the unit of measure of its product; its
    name and its origin are the name of that orderpoint, its location and
    company are the orderpoint's; it has no deadline, and its planned date is
    the replenishment date of those moves for the product, or now when they
    give none. *)
Theorem prepared_procurements_are_well_formed (env : Env)
    (self : list Orderpoint.t) (moves_by_location : gmap positive (list Move.t))
    (procurements : list Procurement.t) :
  __prepare_procurements env self moves_by_location = Ok procurements →
  ∀ procurement, procurement ∈ procurements →
    ∃ orderpoint moves,
      orderpoint ∈ self
      ∧ moves_by_location !! Location.id (Orderpoint.location_id orderpoint)
        = Some moves
      ∧ 0 < Procurement.product_qty procurement
      ∧ Procurement.product_uom procurement
        = Product.uom_id (Procurement.product_id procurement)
      ∧ Procurement.name procurement = Orderpoint.name orderpoint
      ∧ Procurement.origin procurement = Orderpoint.name orderpoint
      ∧ Procurement.location_id procurement = Orderpoint.location_id orderpoint
      ∧ Procurement.company_id procurement = Orderpoint.company_id orderpoint
      ∧ ProcurementValues.location_orderpoint_id (Procurement.values procurement)
        = Orderpoint.id orderpoint
      ∧ ProcurementValues.date_deadline (Procurement.values procurement) = None
      ∧ ProcurementValues.date_planned (Procurement.values procurement)
        = Some match replenishment_date moves (Procurement.product_id procurement) with
               | Some date => date
               | None => now env
               end.
Proof.
  intros Hprocs procurement Hin.
  destruct (_get_qties_to_replenish env self moves_by_location)
    as [res|e] eqn:Hres.
  - rewrite (prepare_procurements_entries _ _ _ _ Hres) in Hprocs.
    injection Hprocs as <-.
    apply list_elem_of_bind in Hin as ([orderpoint items] & Hin & Hentry).
    pose proof (get_qties_to_replenish_locations _ _ _ _ Hres) as Hloc.
    rewrite Forall_forall in Hloc. destruct (Hloc _ Hentry) as [moves Hmoves].
    pose proof (get_qties_to_replenish_keys _ _ _ _ Hres) as Hkeys.
    rewrite Forall_forall in Hkeys. destruct (Hkeys _ Hentry) as [Hself _].
    cbn [fst] in Hmoves, Hself.
    unfold entry_procurements in Hin. cbn [fst snd] in Hin.
    rewrite Hmoves in Hin. cbn [default] in Hin.
    apply list_elem_of_fmap in Hin as ([product qty] & -> & Hitem).
    exists orderpoint, moves.
    cbn [_prepare_procurement Procurement.product_qty Procurement.product_uom
         Procurement.product_id Procurement.origin Procurement.name
         Procurement.location_id Procurement.company_id
         Procurement.values ProcurementValues.date_deadline
         ProcurementValues.date_planned ProcurementValues.location_orderpoint_id
         _prepare_procurement_values fst snd].
    split; [exact Hself|]. split; [exact Hmoves|].
    split; [|repeat split; by destruct (replenishment_date moves product)].
    apply final_state in Hres as (final & Hfinal & ->).
    assert (Hinv : loop_inv
                     (_compute_quantities_dict env (orderpoints_locations self)
                        (moves_products moves_by_location)) final).
    { apply (iteration_prefix_inv _ self moves_by_location
               (length (iteration self moves_by_location))).
      rewrite firstn_all. exact Hfinal. }
    destruct Hinv as (_ & _ & Hrec). rewrite Forall_forall in Hrec.
    destruct (Hrec _ Hentry) as [_ Hitems]. rewrite Forall_forall in Hitems.
    exact (Hitems _ Hitem).
  - unfold __prepare_procurements in Hprocs. rewrite Hres in Hprocs.
    discriminate.
Qed.

End assign_facts.

(** ** Order of the result, and runs without waiting moves *)

Section order_facts.
Context `{ORM}.
Implicit Types (env : Env) (self : list Orderpoint.t).
Implicit Types (qties : quantities_dict) (st : loop_state).

Lemma replenish_products_keys qties (orderpoint : Orderpoint.t) st st'
    (products : list Product.t) :
  foldlM (replenish_product qties orderpoint) st products = Ok st' →
  (λ entry, Orderpoint.id entry.1) <$> qties_to_replenish st'
  = (λ entry, Orderpoint.id entry.1) <$> qties_to_replenish st
  ∨ (λ entry, Orderpoint.id entry.1) <$> qties_to_replenish st'
    = ((λ entry, Orderpoint.id entry.1) <$> qties_to_replenish st)
      ++ [Orderpoint.id orderpoint].
Proof.
  apply (foldlM_invariant _
           (λ st1,
              (λ entry, Orderpoint.id entry.1) <$> qties_to_replenish st1
              = (λ entry, Orderpoint.id entry.1) <$> qties_to_replenish st
              ∨ (λ entry, Orderpoint.id entry.1) <$> qties_to_replenish st1
                = ((λ entry, Orderpoint.id entry.1) <$> qties_to_replenish st)
                  ++ [Orderpoint.id orderpoint])); [|by left].
  intros st1 product st2 _ Hst1 Hstep.
  apply (replenish_pair_cases qties st1 (orderpoint, product)) in Hstep
    as [->|(q & _ & _ & ->)]; [exact Hst1|].
  cbn [qties_to_replenish fst snd]. rewrite to_replenish_append_ids.
  destruct Hst1 as [Hsame|Hadded].
  - rewrite Hsame. case_decide; [by left | by right].
  - rewrite Hadded, decide_True; [by right|].
    apply elem_of_app. right. by left.
Qed.

Lemma replenish_orderpoints_keys qties
    (moves_by_location : gmap positive (list Move.t)) self st st'
    (before : list positive) :
  foldlM (replenish_orderpoint qties moves_by_location) st self = Ok st' →
  sublist ((λ entry, Orderpoint.id entry.1) <$> qties_to_replenish st) before →
  sublist ((λ entry, Orderpoint.id entry.1) <$> qties_to_replenish st')
    (before ++ (Orderpoint.id <$> self)).
Proof.
  revert st before. induction self as [|orderpoint self IH]; intros st before.
  - intros [= <-]. by rewrite app_nil_r.
  - cbn [foldlM].
    destruct (replenish_orderpoint qties moves_by_location st orderpoint)
      as [st1|] eqn:Hstep; cbn [mbind result_bind]; [|discriminate].
    intros Hrest Hbefore. rewrite fmap_cons, cons_middle, app_assoc.
    apply (IH st1); [exact Hrest|].
    unfold replenish_orderpoint in Hstep.
    destruct (moves_by_location !! _) as [moves|].
    + apply replenish_products_keys in Hstep as [-> | ->].
      * by apply sublist_inserts_r.
      * by apply sublist_app.
    + injection Hstep as <-. by apply sublist_inserts_r.
Qed.

(** X13: the entries of the result of [_get_qties_to_replenish] come in the
    order of the orderpoints it was given: their ids, in order, are the ids
    of the orderpoints with some left out. *)
Theorem get_qties_to_replenish_keeps_order env self
    (moves_by_location : gmap positive (list Move.t)) (res : to_replenish_dict) :
  _get_qties_to_replenish env self moves_by_location = Ok res →
  sublist ((λ entry, Orderpoint.id entry.1) <$> res) (Orderpoint.id <$> self).
Proof.
  unfold _get_qties_to_replenish. cbv zeta.
  destruct (foldlM _ loop_init self) as [final|] eqn:Hfinal;
    cbn [mbind result_bind]; [|discriminate].
  intros [= <-].
  apply (replenish_orderpoints_keys _ _ _ _ _ []) in Hfinal; [exact Hfinal|].
  apply sublist_nil_l.
Qed.

Lemma iteration_no_moves self : iteration self ∅ = [].
Proof.
  unfold iteration. induction self as [|orderpoint self IH]; [reflexivity|].
  cbn [fmap list_fmap mjoin list_join]. rewrite lookup_empty. exact IH.
Qed.

(** X14: when the database holds no waiting move, whatever the orderpoints
    and the products asked for, no procurement is prepared and a
    replenishment run leaves the state as it is. *)
Theorem run_replenishment_without_waiting_moves self
    (products : option (list Product.t)) (w : World) :
  (∀ domain, read_group_moves (db w) domain = []) →
  _prepare_procurements (db w) self products = Ok []
  ∧ run_replenishment self products w = Ok w.
Proof.
  intros Hnone.
  assert (Hprep : _prepare_procurements (db w) self products = Ok []).
  { unfold _prepare_procurements, _find_potential_moves_to_replenish_by_location.
    cbv zeta. rewrite Hnone. cbn [foldl].
    unfold __prepare_procurements.
    rewrite get_qties_to_replenish_iteration, iteration_no_moves.
    reflexivity. }
  split; [exact Hprep|]. unfold run_replenishment. rewrite Hprep. reflexivity.
Qed.

End order_facts.

(** ** The further properties on the small warehouse *)

Section more_on_the_small_warehouse.
Import Example Example2.

Lemma example_positive_roundings : positive_roundings moves_by_location.
Proof.
  intros location moves move Hmoves Hmove. unfold moves_by_location in Hmoves.
  apply lookup_singleton_Some in Hmoves as [_ <-].
  apply list_elem_of_singleton in Hmove as ->. reflexivity.
Qed.

Lemma example_one_record_per_id : one_record_per_id [from_a; from_b].
Proof.
  intros o1 o2 Ho1 Ho2.
  apply elem_of_cons in Ho1 as [->|Ho1];
    [|apply list_elem_of_singleton in Ho1 as ->];
    (apply elem_of_cons in Ho2 as [->|Ho2];
     [|apply list_elem_of_singleton in Ho2 as ->]);
    first [reflexivity | discriminate].
Qed.

Example example_parent :
  _is_location_parent_of [from_a] bin field_location_id = Some true
  ∧ _is_location_parent_of [from_a] bin field_location_src_id = None
  ∧ _is_location_parent_of [no_route] shelf field_location_src_id = None.
Proof. repeat split. Qed.

(** X2 on the two orderpoints of the shelf. *)
Lemma get_qties_to_replenish_returns_witness :
  ∃ res,
    @_get_qties_to_replenish orm tt [from_a; from_b] moves_by_location = Ok res.
Proof.
  exact (@get_qties_to_replenish_returns orm tt [from_a; from_b] moves_by_location
           example_positive_roundings).
Defined.

(** X3 on the same run: two procurements, 3 from reserve A and 7 from
    reserve B. *)
Lemma prepare_procurements_one_per_quantity_witness :
  @__prepare_procurements orm tt [from_a; from_b] moves_by_location
  = Ok ([(from_a, [(shoes, 3)]); (from_b, [(shoes, 7)])]
          ≫= @entry_procurements orm tt moves_by_location)
  ∧ (∀ procurements,
       @__prepare_procurements orm tt [from_a; from_b] moves_by_location
       = Ok procurements →
       length procurements = 2%nat).
Proof.
  refine (proj2 (@prepare_procurements_one_per_quantity orm tt [from_a; from_b]
                   moves_by_location
                   [(from_a, [(shoes, 3)]); (from_b, [(shoes, 7)])] _)).
  evaluate.
Defined.

(** X4 on the same run. *)
Lemma get_qties_to_replenish_is_dictionary_witness :
  NoDup ((λ entry : Orderpoint.t * list (Product.t * Q), Orderpoint.id entry.1)
           <$> [(from_a, [(shoes, 3)]); (from_b, [(shoes, 7)])])
  ∧ Forall (λ entry : Orderpoint.t * list (Product.t * Q), entry.2 ≠ [])
      [(from_a, [(shoes, 3)]); (from_b, [(shoes, 7)])].
Proof.
  refine (@get_qties_to_replenish_is_dictionary orm tt [from_a; from_b]
            moves_by_location _ _).
  evaluate.
Defined.

(** X5 on the same run: the 7 pairs ordered from reserve B are within the 15
    available there. *)
Lemma recorded_quantities_are_reservable_witness :
  ∃ src qs,
    Orderpoint.location_src_id from_b = Some src
    ∧ lookup_quantities (qties_on_locations [from_a; from_b]) src shoes = Some qs
    ∧ 7 <= available_at_source qs.
Proof.
  refine (proj2 (@recorded_quantities_are_reservable orm tt [from_a; from_b]
                   moves_by_location
                   [(from_a, [(shoes, 3)]); (from_b, [(shoes, 7)])]
                   example_one_record_per_id _ from_b [(shoes, 7)] shoes 7 _ _)).
  - evaluate.
  - right. left.
  - left.
Defined.

(** X7 after both reserves have been used: a further pass over reserve B
    records nothing. *)
Lemma nothing_recorded_once_deficit_is_covered_witness :
  replenish_product (qties_on_locations [from_a; from_b]) from_b served shoes
  = Ok served
  ∧ served = served.
Proof.
  assert (Hstep : replenish_product (qties_on_locations [from_a; from_b]) from_b
                    served shoes = Ok served) by evaluate.
  split; [exact Hstep|].
  refine (nothing_recorded_once_deficit_is_covered
            (qties_on_locations [from_a; from_b]) from_b shoes served served
            on_shelf _ _ Hstep); evaluate.
Defined.

(** X8 on a recordset whose second orderpoint has a route that delivers
    elsewhere. *)
Lemma check_location_id_route_id_first_failure_witness :
  _check_location_id_route_id ([from_a] ++ bad_route :: [no_route])
  = Raise (ValidationError
             (route_error_message (Route.display_name route_elsewhere)
                (Location.display_name (Orderpoint.location_id bad_route)))).
Proof.
  refine (proj2 check_location_id_route_id_first_failure [from_a] bad_route
            [no_route] route_elsewhere _ _ _).
  - repeat constructor.
    exists (Rule.Build_t 1 shelf (Some reserve_a) "make_to_stock").
    split; [by left | reflexivity].
  - reflexivity.
  - intros (rule & Hrule & Hid). apply list_elem_of_singleton in Hrule as ->.
    discriminate.
Defined.

(** X9 on the bin of the shelf: the shelf is covered, hence the bin. *)
Lemma is_location_parent_of_spec_witness :
  _is_location_parent_of [from_a] bin field_location_id = Some true.
Proof.
  destruct (is_location_parent_of_spec [from_a] shelf field_location_id)
    as (_ & _ & Hself & Hchild).
  apply Hchild; [|reflexivity]. apply Hself. left.
Defined.

(** X11 on a run with work: the procurement run comes first. *)
Lemma run_replenishment_effects_witness :
  @run_replenishment orm [from_a; from_b] None world = Ok after_run
  ∧ ∃ procurements,
      @_prepare_procurements orm (db world) [from_a; from_b] None
      = Ok procurements
      ∧ ((procurements = [] ∧ after_run = world)
         ∨ (procurements ≠ []
            ∧ ∃ chunks,
                effects after_run
                = effects world ++ ProcurementRun procurements
                                     :: (ActionAssign <$> chunks)
                ∧ mjoin chunks
                  = Move.id <$> @search_moves orm
                                  (@procurement_run orm procurements (db world))
                                  (_prepare_to_assign_replenishment_move_domain
                                     [from_a; from_b])
                                  "priority desc, date asc, id asc")).
Proof.
  assert (Hrun : @run_replenishment orm [from_a; from_b] None world = Ok after_run)
    by evaluate.
  split; [exact Hrun|].
  exact (proj1 (@run_replenishment_effects orm [from_a; from_b] None world)
           after_run Hrun).
Defined.

(** X12 on the same run. *)
Lemma prepared_procurements_are_well_formed_witness :
  match @__prepare_procurements orm tt [from_a; from_b] moves_by_location with
  | Ok procurements =>
      ∀ procurement, procurement ∈ procurements →
        ∃ orderpoint moves,
          orderpoint ∈ [from_a; from_b]
          ∧ moves_by_location !! Location.id (Orderpoint.location_id orderpoint)
            = Some moves
          ∧ 0 < Procurement.product_qty procurement
          ∧ Procurement.product_uom procurement
            = Product.uom_id (Procurement.product_id procurement)
          ∧ Procurement.name procurement = Orderpoint.name orderpoint
          ∧ Procurement.origin procurement = Orderpoint.name orderpoint
          ∧ Procurement.location_id procurement
            = Orderpoint.location_id orderpoint
          ∧ Procurement.company_id procurement = Orderpoint.company_id orderpoint
          ∧ ProcurementValues.location_orderpoint_id
              (Procurement.values procurement)
            = Orderpoint.id orderpoint
          ∧ ProcurementValues.date_deadline (Procurement.values procurement)
            = None
          ∧ ProcurementValues.date_planned (Procurement.values procurement)
            = Some match @replenishment_date orm moves
                           (Procurement.product_id procurement) with
                   | Some date => date
                   | None => @now orm tt
                   end
  | Raise _ => False
  end.
Proof.
  destruct (@__prepare_procurements orm tt [from_a; from_b] moves_by_location)
    as [procurements|e] eqn:Hprocs.
  - exact (@prepared_procurements_are_well_formed orm tt [from_a; from_b]
             moves_by_location procurements Hprocs).
  - vm_compute in Hprocs. discriminate.
Defined.

(** X13 on the same run. *)
Lemma get_qties_to_replenish_keeps_order_witness :
  sublist
    ((λ entry : Orderpoint.t * list (Product.t * Q), Orderpoint.id entry.1)
       <$> [(from_b, [(shoes, 10)])])
    (Orderpoint.id <$> [no_route; from_b; other_method]).
Proof.
  refine (@get_qties_to_replenish_keeps_order orm tt [no_route; from_b; other_method]
            moves_by_location _ _).
  evaluate.
Defined.

(** X14 on the day without waiting moves. *)
Lemma run_replenishment_without_waiting_moves_witness :
  @_prepare_procurements idle_orm (db idle_world) [from_a; from_b] None = Ok []
  ∧ @run_replenishment idle_orm [from_a; from_b] None idle_world = Ok idle_world.
Proof.
  refine (@run_replenishment_without_waiting_moves idle_orm [from_a; from_b] None
            idle_world _).
  intros domain. reflexivity.
Defined.

End more_on_the_small_warehouse.

(** ** The loop in binary64 arithmetic *)

Section ieee_facts.
Implicit Types (qties : IEEE.quantities_dict) (st : IEEE.loop_state).








End ieee_facts.

Section ieee_on_the_small_warehouse.
Import Example.



End ieee_on_the_small_warehouse.
